(** * Identifier and address derivation of the chain SDK

  A shallow embedding of [sdk/namespace_model.go] and
  [sdk/account_model.go]: namespace identifiers and their hash-chained
  paths, alias addresses, address parsing and pretty-printing, and the
  address checksum.
  The client of the REST API follows: its configuration, the fail-over
  between the base URLs, and the check of status codes.

  Conventions.
  - A Go [uint64] is a [Z] in [0, 2^64); a Go [byte] is a [Z] in [0, 256);
    wrap-around is written out where the code can overflow.
  - A Go [string] is a sequence of bytes and is modelled by [string]
    (a list of 8-bit characters); a [[]byte] is a [list Z], and a
    [ByteSlice] where the code slices it again, since a slice expression on
    a slice is bounded by the capacity and not by the length.
  - A Go function returning [(T, error)] returns an [outcome T]; a run-time
    panic (index or slice bound out of range) is the third outcome [Panic].
  - The parts of the Go standard library the code calls ([strings],
    [encoding/hex], [encoding/base32], [encoding/binary], [fmt]) are
    modelled in the modules [GoStrings], [GoBinary], [GoHex], [GoFmt] and
    [GoBase32], as far as the code uses them.
  - What lives outside the two files (the name grammar, the version table,
    the hash primitive, [generateNamespaceId]) is a [Variable] of the
    section that uses it.
  - In the client a pointer that may be nil is an [option], and the network
    is a parameter: the outcomes of the requests, in the order in which they
    are sent. *)

From Stdlib Require Import ZArith Lia Bool Ascii String List.
From stdpp Require Import base numbers option list strings gmap.

Open Scope Z_scope.

(** ** Errors and outcomes *)

Inductive error : Type :=
  | ErrInvalidNamespaceName
  | ErrNamespaceTooManyPart
  | ErrWrongBitNamespaceId
  | ErrInvalidAddress
  | CorruptInputError            (* encoding/base32 *)
  | InvalidByteError (b : Z)     (* encoding/hex *)
  | ErrLength                    (* encoding/hex *)
  | ErrExternal (code : nat).    (* an error of a collaborator outside the files *)

Inductive outcome (A : Type) : Type :=
  | Ok (a : A)
  | Err (e : error)
  | Panic.

Arguments Ok {A} a.
Arguments Err {A} e.
Arguments Panic {A}.

Definition bind {A B : Type} (m : outcome A) (k : A -> outcome B) : outcome B :=
  match m with
  | Ok a => k a
  | Err e => Err e
  | Panic => Panic
  end.

Notation "'let*' x ':=' m 'in' k" := (bind m (fun x => k))
  (at level 10, x name, m at level 100, k at level 200).

(** ** Bytes and strings *)

Definition byte_of_ascii (c : ascii) : Z := Z.of_N (N_of_ascii c).
Definition ascii_of_byte (b : Z) : ascii := ascii_of_N (Z.to_N b).

Fixpoint bytes_of_string (s : string) : list Z :=
  match s with
  | EmptyString => []
  | String c s' => byte_of_ascii c :: bytes_of_string s'
  end.

Fixpoint string_of_bytes (l : list Z) : string :=
  match l with
  | [] => EmptyString
  | b :: l' => String (ascii_of_byte b) (string_of_bytes l')
  end.

(** [uint8(x)]: truncation of an integer to a byte. *)
Definition uint8 (x : Z) : Z := Z.land x 255.

Module GoStrings.

(** [strings.Split(s, sep)] for a one-byte separator: the substrings
    between the separators, one more than there are separators. *)
Fixpoint Split (s : string) (sep : ascii) : list string :=
  match s with
  | EmptyString => [EmptyString]
  | String c s' =>
      if Ascii.eqb c sep then EmptyString :: Split s' sep
      else match Split s' sep with
           | h :: t => String c h :: t
           | [] => [String c EmptyString]
           end
  end.

(** [strings.Replace(s, old, new, -1)] for a one-byte [old]. *)
Fixpoint Replace (s : string) (old : ascii) (new : string) : string :=
  match s with
  | EmptyString => EmptyString
  | String c s' =>
      if Ascii.eqb c old then new +:+ Replace s' old new
      else String c (Replace s' old new)
  end.

(** [strings.Repeat(s, count)]. *)
Fixpoint Repeat (s : string) (count : nat) : string :=
  match count with
  | O => EmptyString
  | S n => s +:+ Repeat s n
  end.

Definition isLower (c : ascii) : bool :=
  (97 <=? byte_of_ascii c) && (byte_of_ascii c <=? 122).

Definition isASCII (s : string) : bool :=
  forallb (fun b => b <? 128) (bytes_of_string s).

Definition upperByte (c : ascii) : ascii :=
  if isLower c then ascii_of_byte (byte_of_ascii c - 32) else c.

Fixpoint mapBytes (f : ascii -> ascii) (s : string) : string :=
  match s with
  | EmptyString => EmptyString
  | String c s' => String (f c) (mapBytes f s')
  end.

(** [strings.ToUpper(s)]: an ASCII-only string is mapped byte by byte;
    any other string goes through [strings.Map(unicode.ToUpper, s)], whose
    Unicode tables are the parameter [unicodeUpper]. *)
Definition ToUpper (unicodeUpper : string -> string) (s : string) : string :=
  if isASCII s then mapBytes upperByte s else unicodeUpper s.

(** [s[lo:hi]]: panics unless [lo <= hi <= len(s)]. *)
Definition slice (s : string) (lo hi : Z) : outcome string :=
  if (0 <=? lo) && (lo <=? hi) && (hi <=? Z.of_nat (String.length s))
  then Ok (substring (Z.to_nat lo) (Z.to_nat (hi - lo)) s)
  else Panic.

End GoStrings.

Module GoBinary.

(** [binary.LittleEndian.PutUint64(b, v)] on a fresh 8-byte buffer. *)
Definition PutUint64 (v : Z) : list Z :=
  map (fun i => uint8 (Z.shiftr v (8 * i))) [0; 1; 2; 3; 4; 5; 6; 7].

(** [binary.LittleEndian.Uint64(b)]: panics when [b] has fewer than 8
    bytes. *)
Definition Uint64 (b : list Z) : outcome Z :=
  match b with
  | b0 :: b1 :: b2 :: b3 :: b4 :: b5 :: b6 :: b7 :: _ =>
      Ok (Z.lor b0 (Z.lor (Z.shiftl b1 8) (Z.lor (Z.shiftl b2 16)
         (Z.lor (Z.shiftl b3 24) (Z.lor (Z.shiftl b4 32)
         (Z.lor (Z.shiftl b5 40) (Z.lor (Z.shiftl b6 48) (Z.shiftl b7 56))))))))
  | _ => Panic
  end.

End GoBinary.

(** ** The hash primitive

    SHA3-256 (FIPS 202) is the hash behind [crypto.HashesSha3_256].  The code
    is verified against an arbitrary hash; this model of the primitive
    instantiates it where a statement is run on concrete data. *)

Module Sha3.

(** The state of Keccak-f[1600]: 25 lanes of 64 bits, lane [(x, y)] at index
    [x + 5 * y]. *)
Definition mask64 (x : Z) : Z := Z.land x (Z.ones 64).

Definition rotl64 (x : Z) (n : Z) : Z :=
  mask64 (Z.lor (Z.shiftl x n) (Z.shiftr x (64 - n))).

Definition lane (st : list Z) (x y : nat) : Z :=
  nth (x mod 5 + 5 * (y mod 5)) st 0.

Definition coords : list (nat * nat) :=
  flat_map (fun y => map (fun x => (x, y)) (seq 0 5)) (seq 0 5).

(** The rotation offsets, by lane index. *)
Definition rotc : list Z :=
  [ 0;  1; 62; 28; 27;
   36; 44;  6; 55; 20;
    3; 10; 43; 25; 39;
   41; 45; 15; 21;  8;
   18;  2; 61; 56; 14].

(** The round constants. *)
Definition RC : list Z :=
  [0x0000000000000001; 0x0000000000008082; 0x800000000000808A; 0x8000000080008000;
   0x000000000000808B; 0x0000000080000001; 0x8000000080008081; 0x8000000000008009;
   0x000000000000008A; 0x0000000000000088; 0x0000000080008009; 0x000000008000000A;
   0x000000008000808B; 0x800000000000008B; 0x8000000000008089; 0x8000000000008003;
   0x8000000000008002; 0x8000000000000080; 0x000000000000800A; 0x800000008000000A;
   0x8000000080008081; 0x8000000000008080; 0x0000000080000001; 0x8000000080008008].

(** Theta: every lane is mixed with the parities of two columns. *)
Definition theta (st : list Z) : list Z :=
  let C x := fold_left Z.lxor (map (fun y => lane st x y) (seq 0 5)) 0 in
  let Cs := map C (seq 0 5) in
  let c x := nth (x mod 5) Cs 0 in
  let D x := Z.lxor (c (x + 4)%nat) (rotl64 (c (x + 1)%nat) 1) in
  let Ds := map D (seq 0 5) in
  map (fun '(x, y) => Z.lxor (lane st x y) (nth x Ds 0)) coords.

(** Rho and pi: lane [(x, y)] is rotated and moved to [(y, 2x + 3y)]; read
    from the target, lane [(X, Y)] comes from [x = X + 3Y], [y = X]. *)
Definition rhopi (st : list Z) : list Z :=
  map (fun '(X, Y) =>
         let x := ((X + 3 * Y) mod 5)%nat in
         let y := X in
         rotl64 (lane st x y) (nth (x + 5 * y) rotc 0)) coords.

(** Chi: the non-linear step along the rows. *)
Definition chi (st : list Z) : list Z :=
  map (fun '(x, y) =>
         Z.lxor (lane st x y)
           (Z.land (Z.lxor (lane st (x + 1) y) (Z.ones 64)) (lane st (x + 2) y)))
      coords.

(** Iota: the round constant goes into lane [(0, 0)]. *)
Definition iota (rc : Z) (st : list Z) : list Z :=
  match st with
  | a :: rest => Z.lxor a rc :: rest
  | [] => []
  end.

Definition round (st : list Z) (rc : Z) : list Z :=
  iota rc (chi (rhopi (theta st))).

Definition keccak_f (st : list Z) : list Z := fold_left round RC st.

(** The sponge of SHA3-256: blocks of 136 bytes, domain bits 0x06, final
    bit 0x80, 32 bytes of output. *)
Definition rate : nat := 136.

Fixpoint le64 (bs : list Z) (k : nat) : Z :=
  match k, bs with
  | S k', b :: bs' => Z.lor b (Z.shiftl (le64 bs' k') 8)
  | _, _ => 0
  end.

Fixpoint lanes_of (n : nat) (bs : list Z) : list Z :=
  match n with
  | O => []
  | S n' => le64 bs 8 :: lanes_of n' (drop 8 bs)
  end.

Definition absorb (st : list Z) (block : list Z) : list Z :=
  let ls := lanes_of 25 block in
  keccak_f (map (fun '(a, b) => Z.lxor a b) (combine st ls)).

Definition pad (msg : list Z) : list Z :=
  let q := (rate - length msg mod rate)%nat in
  if (q =? 1)%nat then msg ++ [0x86]
  else msg ++ [0x06] ++ repeat 0 (q - 2) ++ [0x80].

(** One block per unit of [fuel]; the length of the padded message is more
    than enough. *)
Fixpoint absorb_all (fuel : nat) (st : list Z) (bs : list Z) : list Z :=
  match fuel with
  | O => st
  | S f =>
      match bs with
      | [] => st
      | _ => absorb_all f (absorb st (take rate bs)) (drop rate bs)
      end
  end.

Definition bytes_of_lane (l : Z) : list Z :=
  map (fun i => Z.land (Z.shiftr l (8 * i)) 255) [0; 1; 2; 3; 4; 5; 6; 7].

Definition sha3_256 (msg : list Z) : list Z :=
  let p := pad msg in
  let st := absorb_all (length p) (repeat 0 25%nat) p in
  take 32 (flat_map bytes_of_lane st).

End Sha3.

(** ** Namespace identifiers ([namespace_model.go]) *)

Definition NamespaceBit : Z := Z.shiftl 1 63.

(** Modelled from the spec: the declaration of [baseInt64] is outside the two
  files; the spec calls the identifier types wrappers over 64-bit integers.
  The conversion [baseInt64(id)] of a [uint64] is modelled as the signed
  reading of the same 64 bits, and [uint64(m.baseInt64)] as the way back. *)
Definition baseInt64 (id : Z) : Z :=
  let w := id mod 2 ^ 64 in if w <? 2 ^ 63 then w else w - 2 ^ 64.

Definition uint64 (x : Z) : Z := x mod 2 ^ 64.

Record NamespaceId : Type := mkNamespaceId { namespaceBase : Z }.

(** Modelled from the spec: [hasBits] is a helper outside the two files; the
  spec reads it as "the bit is set", i.e. all bits of the mask are present
  in the number. *)
Definition hasBits (number bits : Z) : bool := Z.land number bits =? bits.

Definition NewNamespaceIdNoCheck (id : Z) : NamespaceId :=
  mkNamespaceId (baseInt64 id).

Definition NewNamespaceId (id : Z) : outcome NamespaceId :=
  if negb (id =? 0) && negb (hasBits id NamespaceBit)
  then Err ErrWrongBitNamespaceId
  else Ok (NewNamespaceIdNoCheck id).

Definition Id (m : NamespaceId) : Z := uint64 (namespaceBase m).

Section NamespacePath.

(** The name grammar [regValidNamespace.MatchString] and the derivation
    step [generateNamespaceId] are declared outside the two files. *)
Variable regValidNamespace : string -> bool.
Variable generateNamespaceId : string -> NamespaceId -> outcome NamespaceId.

(** The body of [for _, part := range parts], with the loop variables
    [namespaceId] and [path] as accumulators. *)
Fixpoint pathLoop (parts : list string) (namespaceId : NamespaceId)
    (path : list NamespaceId) : outcome (list NamespaceId) :=
  match parts with
  | [] => Ok path
  | part :: rest =>
      if negb (regValidNamespace part) then Err ErrInvalidNamespaceName
      else
        let* id := generateNamespaceId part namespaceId in
        pathLoop rest id (path ++ [id])
  end.

Definition GenerateNamespacePath (name : string) : outcome (list NamespaceId) :=
  let parts := GoStrings.Split name "." in
  if (length parts =? 0)%nat then Err ErrInvalidNamespaceName
  else if (3 <? length parts)%nat then Err ErrNamespaceTooManyPart
  else pathLoop parts (NewNamespaceIdNoCheck 0) [].

(** [NewNamespaceIdFromName]: the last identifier of the path. *)
Definition NewNamespaceIdFromName (namespaceName : string) : outcome NamespaceId :=
  let* list := GenerateNamespacePath namespaceName in
  match last list with
  | None => Err ErrInvalidNamespaceName
  | Some id => Ok id
  end.

(** [chain parent parts ids]: the identifiers [ids] are derived from the
    segments [parts] one after the other, each from its predecessor and the
    first one from [parent]. *)
Inductive chain : NamespaceId -> list string -> list NamespaceId -> Prop :=
  | chain_nil parent : chain parent [] []
  | chain_cons parent part id parts ids :
      generateNamespaceId part parent = Ok id ->
      chain id parts ids ->
      chain parent (part :: parts) (id :: ids).

End NamespacePath.

(** The identifier before position [i] of a path that starts at [root]. *)
Definition parentAt (root : NamespaceId) (path : list NamespaceId) (i : nat)
    : NamespaceId :=
  match i with
  | O => root
  | S j => default root (path !! j)
  end.

(** The number of separators [sep] in a string; a name has one segment more
    than it has dots. *)
Fixpoint countByte (sep : ascii) (s : string) : nat :=
  match s with
  | EmptyString => O
  | String c s' => ((if Ascii.eqb c sep then 1 else 0) + countByte sep s')%nat
  end.

(** ** The encodings of the Go standard library *)

Module GoHex.

Definition hextable : string := "0123456789abcdef".

Definition hexChar (v : Z) : ascii :=
  match String.get (Z.to_nat v) hextable with
  | Some c => c
  | None => "0"%char
  end.

(** [hex.EncodeToString(src)]: two lower-case digits per byte. *)
Fixpoint EncodeToString (src : list Z) : string :=
  match src with
  | [] => EmptyString
  | v :: rest =>
      String (hexChar (Z.shiftr v 4))
        (String (hexChar (Z.land v 15)) (EncodeToString rest))
  end.

(** The value of one hexadecimal digit, of either case. *)
Definition fromHexChar (c : Z) : option Z :=
  if (48 <=? c) && (c <=? 57) then Some (c - 48)
  else if (97 <=? c) && (c <=? 102) then Some (c - 97 + 10)
  else if (65 <=? c) && (c <=? 70) then Some (c - 65 + 10)
  else None.

(** [hex.Decode]: pairs of digits from the left; the first bad digit is
    reported before an odd length. *)
Fixpoint Decode (src : list Z) : outcome (list Z) :=
  match src with
  | [] => Ok []
  | p :: [] =>
      match fromHexChar p with
      | None => Err (InvalidByteError p)
      | Some _ => Err ErrLength
      end
  | p :: q :: rest =>
      match fromHexChar p with
      | None => Err (InvalidByteError p)
      | Some a =>
          match fromHexChar q with
          | None => Err (InvalidByteError q)
          | Some b =>
              let* tl := Decode rest in
              Ok (Z.lor (uint8 (Z.shiftl a 4)) b :: tl)
          end
      end
  end.

Definition DecodeString (s : string) : outcome (list Z) :=
  Decode (bytes_of_string s).

End GoHex.

Module GoFmt.

Definition upperDigits : string := "0123456789ABCDEF".

Definition upperDigit (v : Z) : ascii :=
  match String.get (Z.to_nat v) upperDigits with
  | Some c => c
  | None => "0"%char
  end.

Fixpoint digitsX (fuel : nat) (n : Z) (acc : string) : string :=
  match fuel with
  | O => acc
  | S f =>
      let acc' := String (upperDigit (n mod 16)) acc in
      if n / 16 =? 0 then acc' else digitsX f (n / 16) acc'
  end.

(** [fmt.Sprintf("%X", n)] for an [int] [0 <= n < 2^64]: upper-case
    hexadecimal, no padding. *)
Definition SprintfX (n : Z) : string := digitsX 16 n EmptyString.

End GoFmt.

Module GoBase32.

Definition encodeStd : string := "ABCDEFGHIJKLMNOPQRSTUVWXYZ234567".
Definition padChar : Z := 61.

(** [enc.encode[v]] for [v < 32]. *)
Definition encodeChar (v : Z) : Z :=
  match String.get (Z.to_nat v) encodeStd with
  | Some c => byte_of_ascii c
  | None => 0
  end.

Fixpoint indexOf (c : Z) (alphabet : list Z) (i : Z) : option Z :=
  match alphabet with
  | [] => None
  | a :: rest => if a =? c then Some i else indexOf c rest (i + 1)
  end.

(** [enc.decodeMap[c]]: the index of [c] in the alphabet, 0xFF for any
    other byte. *)
Definition decodeMap (c : Z) : Z :=
  match indexOf c (bytes_of_string encodeStd) 0 with
  | Some i => i
  | None => 255
  end.

(** The eight 5-bit blocks of one quantum of up to five source bytes; a
    source byte that is absent contributes nothing (the [switch] of
    [Encode] falls through from the length of the quantum). *)
Definition blocks (src : list Z) : list Z :=
  let s i := nth i src 0 in
  [ Z.shiftr (s 0%nat) 3;
    Z.lor (Z.land (uint8 (Z.shiftl (s 0%nat) 2)) 31) (Z.land (Z.shiftr (s 1%nat) 6) 31);
    Z.land (Z.shiftr (s 1%nat) 1) 31;
    Z.lor (Z.land (uint8 (Z.shiftl (s 1%nat) 4)) 31) (Z.land (Z.shiftr (s 2%nat) 4) 31);
    Z.lor (Z.land (uint8 (Z.shiftl (s 2%nat) 1)) 31) (Z.shiftr (s 3%nat) 7);
    Z.land (Z.shiftr (s 3%nat) 2) 31;
    Z.lor (Z.land (uint8 (Z.shiftl (s 3%nat) 3)) 31) (Z.shiftr (s 4%nat) 5);
    Z.land (s 4%nat) 31 ].

Definition quantumChars (src : list Z) : list Z :=
  map (fun b => encodeChar (Z.land b 31)) (blocks src).

(** How many characters of a final quantum of [n < 5] bytes carry data;
    the others are overwritten with the padding character. *)
Definition dataChars (n : nat) : nat :=
  match n with
  | 1%nat => 2%nat
  | 2%nat => 4%nat
  | 3%nat => 5%nat
  | 4%nat => 7%nat
  | _ => 8%nat
  end.

(** [enc.Encode]: one quantum of five bytes after the other, the last
    one padded. *)
Fixpoint Encode (src : list Z) : list Z :=
  match src with
  | [] => []
  | s0 :: s1 :: s2 :: s3 :: s4 :: rest =>
      quantumChars [s0; s1; s2; s3; s4] ++ Encode rest
  | _ =>
      let n := dataChars (length src) in
      take n (quantumChars src) ++ replicate (8 - n) padChar
  end.

Definition EncodeToString (src : list Z) : string :=
  string_of_bytes (Encode src).

(** The bytes of one decoded quantum: [dbuf] holds the [dlen] blocks read,
    the missing ones are zero. *)
Definition pack (dbuf : list Z) (dlen : nat) : list Z :=
  let d i := nth i dbuf 0 in
  let dst :=
    [ Z.lor (uint8 (Z.shiftl (d 0%nat) 3)) (Z.shiftr (d 1%nat) 2);
      Z.lor (uint8 (Z.shiftl (d 1%nat) 6))
        (Z.lor (uint8 (Z.shiftl (d 2%nat) 1)) (Z.shiftr (d 3%nat) 4));
      Z.lor (uint8 (Z.shiftl (d 3%nat) 4)) (Z.shiftr (d 4%nat) 1);
      Z.lor (uint8 (Z.shiftl (d 4%nat) 7))
        (Z.lor (uint8 (Z.shiftl (d 5%nat) 2)) (Z.shiftr (d 6%nat) 3));
      Z.lor (uint8 (Z.shiftl (d 6%nat) 5)) (d 7%nat) ] in
  match dlen with
  | 8%nat => dst
  | 7%nat => take 4 dst
  | 5%nat => take 3 dst
  | 4%nat => take 2 dst
  | 2%nat => take 1 dst
  | _ => []
  end.

(** [enc.decode], the quantum loop and the loop over the characters of a
    quantum as one recursion over the input: [j] counts the blocks read in
    the current quantum and [dbuf] holds them.  The offset carried by
    [CorruptInputError] is dropped. *)
Fixpoint decode (src : list Z) (j : nat) (dbuf : list Z) : outcome (list Z) :=
  match src with
  | [] =>
      (* at a quantum boundary the input is used up; inside a quantum the
         padding is missing *)
      if (j =? 0)%nat then Ok [] else Err CorruptInputError
  | c :: src' =>
      if (c =? padChar) && (2 <=? j)%nat && (length src' <? 8)%nat then
        if (length src' + j <? 8 - 1)%nat then Err CorruptInputError
        else if negb (forallb (fun x => x =? padChar) (take (8 - 1 - j) src'))
        then Err CorruptInputError
        else if (j =? 1)%nat || (j =? 3)%nat || (j =? 6)%nat
        then Err CorruptInputError
        else Ok (pack dbuf j)
      else
        let v := decodeMap c in
        if v =? 255 then Err CorruptInputError
        else if (S j =? 8)%nat then
          let* more := decode src' 0%nat [] in
          Ok (pack (dbuf ++ [v]) 8 ++ more)
        else decode src' (S j) (dbuf ++ [v])
  end.

(** The input with every '\r' and '\n' removed. *)
Definition stripNewlines (src : list Z) : list Z :=
  filter (fun c => c ≠ 13 ∧ c ≠ 10) src.

Definition DecodeString (s : string) : outcome (list Z) :=
  decode (stripNewlines (bytes_of_string s)) 0%nat [].

End GoBase32.

(** ** Addresses ([account_model.go]) *)

(** [NetworkType] is a [uint8]. *)
Definition NetworkType : Type := Z.

(** Modelled from the spec: the constant [AliasAddress] is declared outside
  the two files; it is the fixed alias-address version byte, 0x91 by the
  comment in [NewAddressFromNamespace]. *)
Definition AliasAddress : NetworkType := 145.

Record Address : Type := mkAddress {
  Address_Type : NetworkType;
  Address_Address : string
  }.

Definition NUM_CHECKSUM_BYTES : nat := 4.

(** A [[]byte] with its capacity: the bytes up to the length of the slice,
    and the bytes of the array behind it from its length up to its
    capacity. *)
Record ByteSlice : Type := mkByteSlice {
  slice_bytes : list Z;
  slice_spare : list Z
  }.

(** The six iterations of the loop of [Pretty]: [count] iterations are left,
  [i] is the loop counter. *)
Fixpoint prettyLoop (a : string) (count : nat) (i : Z) (res : string)
  : outcome string :=
  match count with
  | O => Ok res
  | S count' =>
    let* block := GoStrings.slice a (i * 6) (i * 6 + 6) in
    prettyLoop a count' (i + 1) (res +:+ block +:+ "-")
  end.

Definition Pretty (ad : Address) : outcome string :=
  let a := Address_Address ad in
  let len := Z.of_nat (String.length a) in
  let* res := prettyLoop a 6 0 "" in
  let* tail := GoStrings.slice a (len - 4) len in
  Ok (res +:+ tail).

Section Addresses.

(** The version table [addressNet], the Unicode case tables behind
    [strings.ToUpper] and the hash [crypto.HashesSha3_256] are declared
    outside the two files. *)
Variable addressNet : gmap Z NetworkType.
Variable unicodeUpper : string -> string.
Variable HashesSha3_256 : list Z -> outcome ByteSlice.

Definition NewAddress (address : string) (networkType : NetworkType) : Address :=
  let address := GoStrings.Replace address "-" "" in
  let address := GoStrings.ToUpper unicodeUpper address in
  mkAddress networkType address.

Definition NewAddressFromRaw (address : string) : outcome Address :=
  let* pH := GoBase32.DecodeString address in
  match pH with
  | [] => Panic                       (* pH[0]: index out of range *)
  | version :: _ =>
      match addressNet !! version with
      | Some nType => Ok (NewAddress address nType)
      | None => Err ErrInvalidAddress
      end
  end.

Definition NewAddressFromEncoded (encoded : string) : outcome Address :=
  let* pH := GoHex.DecodeString encoded in
  let parsed := GoBase32.EncodeToString pH in
  NewAddressFromRaw parsed.

(** Modelled from the spec: [NewAddressFromBase32] is declared outside the
    two files.  By the spec the 25 bytes are base32-encoded and the text is
    parsed; the argument built by [NewAddressFromNamespace] is their
    hexadecimal form, so this is the path of [NewAddressFromEncoded]. *)
Definition NewAddressFromBase32 (encoded : string) : outcome Address :=
  let* pH := GoHex.DecodeString encoded in
  let parsed := GoBase32.EncodeToString pH in
  NewAddressFromRaw parsed.

(** The hexadecimal text [a] that [NewAddressFromNamespace] builds. *)
Definition aliasAddressHex (namespaceId : NamespaceId) : string :=
  let a := GoFmt.SprintfX AliasAddress in
  let namespaceB := GoBinary.PutUint64 (Id namespaceId) in
  let a := a +:+ GoHex.EncodeToString namespaceB in
  a +:+ GoStrings.Repeat "00" 16.

Definition NewAddressFromNamespace (namespaceId : NamespaceId) : outcome Address :=
  NewAddressFromBase32 (aliasAddressHex namespaceId).

(** [GenerateChecksum].  The slice expression [h[:NUM_CHECKSUM_BYTES]] on
    the slice [h] reads the array behind [h] and is bounded by the capacity
    of [h]: it panics when the capacity is smaller than that, and reaches
    past the length of [h] when only the length is.  The result is given by
    its bytes. *)
Definition GenerateChecksum (b : list Z) : outcome (list Z) :=
  let* sha3StepThreeHash := HashesSha3_256 b in
  let array := slice_bytes sha3StepThreeHash ++ slice_spare sha3StepThreeHash in
  if (NUM_CHECKSUM_BYTES <=? length array)%nat
  then Ok (take NUM_CHECKSUM_BYTES array)
  else Panic.

End Addresses.

(** The 25 bytes of an alias address: the version byte, the identifier in
    little-endian order, 16 zero bytes. *)
Definition aliasPayload (namespaceId : NamespaceId) : list Z :=
  [AliasAddress] ++ GoBinary.PutUint64 (Id namespaceId) ++ replicate 16 0.

(** ** More of the identifier and address code *)

(** [Equals]: [*m == *id], the comparison of two structs of one field. *)
Definition Equals (m id : NamespaceId) : bool :=
  namespaceBase m =? namespaceBase id.

Section AddressLists.

Variable addressNet : gmap Z NetworkType.
Variable unicodeUpper : string -> string.

(** The loop of [EncodedStringToAddresses]: [i] is the index of the text at
    hand, [result] the slice made with one nil pointer per text. *)
Fixpoint addressesLoop (addresses : list string) (i : nat)
    (result : list (option Address)) : outcome (list (option Address)) :=
  match addresses with
  | [] => Ok result
  | a :: rest =>
      let* ad := NewAddressFromEncoded addressNet unicodeUpper a in
      addressesLoop rest (S i) (<[i := Some ad]> result)
  end.

Definition EncodedStringToAddresses (addresses : list string)
    : outcome (list (option Address)) :=
  addressesLoop addresses 0%nat (replicate (length addresses) None).

End AddressLists.

Section NamespaceAliases.

Variable addressNet : gmap Z NetworkType.
Variable unicodeUpper : string -> string.

(** [AliasType] with its two constants, [MosaicId], and the DTO of a mosaic
    identifier with its method [toStruct] are declared outside the files; a
    pointer that [toStruct] returns may be nil. *)
Variable AddressAliasType MosaicAliasType : Z.
Variable MosaicId : Type.
Variable mosaicIdDTO : Type.
Variable toStruct : mosaicIdDTO -> outcome (option MosaicId).

(** The three fields of [namespaceAliasDTO] that the constructor reads. *)
Record namespaceAliasDTO : Type := mkNamespaceAliasDTO {
  dto_MosaicId : mosaicIdDTO;
  dto_Address : string;
  dto_Type : Z
  }.

Record NamespaceAlias : Type := mkNamespaceAlias {
  alias_mosaicId : option MosaicId;
  alias_address : option Address;
  alias_Type : Z
  }.

Definition NewNamespaceAlias (dto : namespaceAliasDTO) : outcome NamespaceAlias :=
  let alias := mkNamespaceAlias None None (dto_Type dto) in
  if alias_Type alias =? AddressAliasType then
    let* a := NewAddressFromBase32 addressNet unicodeUpper (dto_Address dto) in
    Ok (mkNamespaceAlias (alias_mosaicId alias) (Some a) (alias_Type alias))
  else if alias_Type alias =? MosaicAliasType then
    let* mosaicId := toStruct (dto_MosaicId dto) in
    Ok (mkNamespaceAlias mosaicId (alias_address alias) (alias_Type alias))
  else Ok alias.

End NamespaceAliases.

(** ** The client: configuration, fail-over and status codes *)

(** [time.Second * 5], a [time.Duration] in nanoseconds. *)
Definition WebsocketReconnectionDefaultTimeout : Z := 1000000000 * 5.

(** A [*url.URL]: the address of the value, and the one field of it that the
    code reads.  Two pointers are equal when the addresses are. *)
Record URL : Type := mkURL {
  URL_ptr : nat;
  URL_Host : string
  }.

(** The part of an [http.Response] that the code reads. *)
Record Response : Type := mkResponse { StatusCode : Z }.

Section ClientConfig.

(** [float64] and the constant 0.9, [url.Parse] (as far as the field [Host]
    of its result) and [errors.New] belong to the language and its
    library. *)
Variable float64 : Type.
Variable float_0_9 : float64.
Variable urlParse : string -> outcome string.
Variable errorsNew : string -> error.

Record reputationConfig : Type := mkReputationConfig {
  minInteractions : Z;
  defaultReputation : float64
  }.

Definition defaultRepConfig : reputationConfig :=
  mkReputationConfig 10 float_0_9.

(** [Config]; the pointer [reputationConfig] may be nil. *)
Record Config : Type := mkConfig {
  Config_reputationConfig : option reputationConfig;
  BaseURLs : list URL;
  UsedBaseUrl : URL;
  WsReconnectionTimeout : Z;
  Config_NetworkType : NetworkType
  }.

(** The loop of [NewConfigWithReputation] over [baseUrls]; every parsed URL
    is a new value, whose address is numbered by its position in [urls]. *)
Fixpoint parseLoop (baseUrls : list string) (urls : list URL) : outcome (list URL) :=
  match baseUrls with
  | [] => Ok urls
  | singleUrlStr :: rest =>
      let* u := urlParse singleUrlStr in
      parseLoop rest (urls ++ [mkURL (length urls) u])
  end.

Definition NewConfigWithReputation (baseUrls : list string)
    (networkType : NetworkType) (repConf : option reputationConfig)
    (wsReconnectionTimeout : Z) : outcome Config :=
  if (length baseUrls =? 0)%nat then Err (errorsNew "empty base urls")
  else
    let* urls := parseLoop baseUrls [] in
    match urls with
    | [] => Panic                     (* urls[0]: index out of range *)
    | url0 :: _ =>
        Ok (mkConfig repConf urls url0 wsReconnectionTimeout networkType)
    end.

Definition NewConfig (baseUrls : list string) (networkType : NetworkType)
    (wsReconnectionTimeout : Z) : outcome Config :=
  let wsReconnectionTimeout :=
    if wsReconnectionTimeout =? 0 then WebsocketReconnectionDefaultTimeout
    else wsReconnectionTimeout in
  NewConfigWithReputation baseUrls networkType (Some defaultRepConfig)
    wsReconnectionTimeout.

(** [DoNewRequest].  The network is the parameter [world]: the outcome of
    call number [k] of [c.Do], whatever the request.  [NewRequest] gives the
    host of the request it builds from the configuration, and [isUrlError]
    is the type switch on [*url.Error].  The function returns the
    configuration it leaves behind, the hosts of the requests sent, in
    order, and its result. *)
Variable world : nat -> outcome Response.
Variable NewRequest : Config -> outcome string.
Variable isUrlError : error -> bool.

Definition setUsedBaseUrl (c : Config) (url : URL) : Config :=
  mkConfig (Config_reputationConfig c) (BaseURLs c) url
    (WsReconnectionTimeout c) (Config_NetworkType c).

(** The loop over [c.config.BaseURLs] after a first failure: [k] calls of
    [c.Do] were made, their hosts are [sent], and [err] is the last
    error. *)
Fixpoint failover (c : Config) (urls : list URL) (k : nat) (sent : list string)
    (err : error) : Config * list string * outcome Response :=
  match urls with
  | [] => (c, sent, Err err)
  | url :: rest =>
      if (URL_ptr (UsedBaseUrl c) =? URL_ptr url)%nat then failover c rest k sent err
      else
        match world k with
        | Ok resp => (setUsedBaseUrl c url, sent ++ [URL_Host url], Ok resp)
        | Err e => failover c rest (S k) (sent ++ [URL_Host url]) e
        | Panic => (c, sent ++ [URL_Host url], Panic)
        end
  end.

Definition DoNewRequest (c : Config) : Config * list string * outcome Response :=
  match NewRequest c with
  | Ok host =>
      match world 0%nat with
      | Ok resp => (c, [host], Ok resp)
      | Err err =>
          if isUrlError err then failover c (BaseURLs c) 1%nat [host] err
          else (c, [host], Err err)
      | Panic => (c, [host], Panic)
      end
  | Err err => (c, [], Err err)
  | Panic => (c, [], Panic)
  end.

(** The base URLs other than the one in use, in the order of the
    configuration. *)
Definition others (c : Config) : list URL :=
  filter (fun url => URL_ptr (UsedBaseUrl c) <> URL_ptr url) (BaseURLs c).

End ClientConfig.

Section StatusCodes.

(** The two error values are declared outside the file. *)
Variable ErrInternalError ErrNotAcceptedResponseStatusCode : error.

(** [handleResponseStatusCode]: [resp] and [codeToErrs] may be nil, and so
    may an error stored in the map. *)
Definition handleResponseStatusCode (resp : option Response)
    (codeToErrs : option (gmap Z (option error))) : option error :=
  match resp with
  | None => Some ErrInternalError
  | Some resp =>
      match
        match codeToErrs with
        | Some m => m !! StatusCode resp
        | None => None
        end
      with
      | Some err => err
      | None =>
          if negb (StatusCode resp =? 200) && negb (StatusCode resp =? 202)
          then Some ErrNotAcceptedResponseStatusCode
          else None
      end
  end.

End StatusCodes.

(** ** Predicates of the statements *)

(** [fits k x]: [x] is an unsigned number of [k] bits. *)
Definition fits (k x : Z) : Prop := 0 <= x < 2 ^ k.

Definition allBytes (P : Z -> bool) (s : string) : bool :=
  forallb P (bytes_of_string s).

(** A byte of the base32 alphabet: A-Z and 2-7. *)
Definition isBase32Byte (c : Z) : bool :=
  (65 <=? c) && (c <=? 90) || (50 <=? c) && (c <=? 55).

(** A byte that normalisation leaves alone: ASCII, not a dash, not a
    lower-case letter. *)
Definition isCanonicalByte (c : Z) : bool :=
  (c <? 128) && negb (c =? 45) && negb ((97 <=? c) && (c <=? 122)).

(** The canonical text of an address: 40 characters, dash-free, upper-case. *)
Definition isCanonicalText (s : string) : bool :=
  (String.length s =? 40)%nat && allBytes isCanonicalByte s.

(** A raw address text: 40 characters of the base32 alphabet. *)
Definition isBase32Text (s : string) : bool :=
  (String.length s =? 40)%nat && allBytes isBase32Byte s.

(** Byte sequences made of whole quanta of five bytes. *)
Inductive quanta : list Z -> Prop :=
  | quanta_nil : quanta []
  | quanta_cons s0 s1 s2 s3 s4 rest :
      fits 8 s0 -> fits 8 s1 -> fits 8 s2 -> fits 8 s3 -> fits 8 s4 ->
      quanta rest -> quanta (s0 :: s1 :: s2 :: s3 :: s4 :: rest).

(** One byte survives [hex.EncodeToString] followed by [hex.Decode]. *)
Definition hexByteOk (v : Z) : bool :=
  match GoHex.fromHexChar (byte_of_ascii (GoHex.hexChar (Z.shiftr v 4))),
        GoHex.fromHexChar (byte_of_ascii (GoHex.hexChar (Z.land v 15))) with
  | Some a, Some b => Z.lor (uint8 (Z.shiftl a 4)) b =? v
  | _, _ => false
  end.


(** ** Instances of what lives outside the two files

    The statements below hold for every name grammar, derivation step,
    version table and hash; these instances run them on concrete data. *)

Definition isAlnumByte (c : Z) : bool :=
  (48 <=? c) && (c <=? 57) || (97 <=? c) && (c <=? 122) || (65 <=? c) && (c <=? 90).

(** Modelled from the spec: the grammar [regValidNamespace] is declared
    outside the two files.  A segment is non-empty, made of ASCII
    alphanumerics, '_' and '-', and does not start with one of the two
    symbols. *)
Definition regValidNamespace_spec (part : string) : bool :=
  match bytes_of_string part with
  | [] => false
  | c :: rest =>
      isAlnumByte c
      && forallb (fun d => isAlnumByte d || (d =? 95) || (d =? 45)) rest
  end.

(** Modelled from the spec: [generateNamespaceId] is declared outside the two
    files.  The 8 little-endian bytes of the parent followed by the bytes of
    the name are hashed with SHA3-256; the first 8 bytes of the digest, read
    in little-endian order and with bit 63 forced to 1, are the identifier,
    built by the unchecked constructor. *)
Definition generateNamespaceId_spec (name : string) (parentId : NamespaceId)
    : outcome NamespaceId :=
  let b := GoBinary.PutUint64 (Id parentId) in
  let t := Sha3.sha3_256 (b ++ bytes_of_string name) in
  let* v := GoBinary.Uint64 t in
  Ok (NewNamespaceIdNoCheck (Z.lor v NamespaceBit)).

(** A total hash primitive; the slice it returns has no spare capacity. *)
Definition HashesSha3_256_ref (b : list Z) : outcome ByteSlice :=
  Ok (mkByteSlice (Sha3.sha3_256 b) []).

(** A sample version table: the alias tag and two version bytes of
    key-derived addresses. *)
Definition sampleAddressNet : gmap Z NetworkType :=
  {[ AliasAddress := AliasAddress; 144 := 144; 96 := 96 ]}.

(** Sample case tables: never consulted on ASCII text. *)
Definition sampleUnicodeUpper (s : string) : string := s.

(** Sample data: the identifier of the namespace "nem", the text of its alias
    address, and the path of "prx.xpx". *)
Definition sampleNamespaceId : NamespaceId :=
  NewNamespaceIdNoCheck 0x84B3552D375FFA4B.

Definition sampleAddressText : string :=
  "SFF7UXZXFVK3HBAAAAAAAAAAAAAAAAAAAAAAAAAA".

Definition samplePath : list NamespaceId :=
  [NewNamespaceIdNoCheck 0xB16D77FD8B6FB3BE; NewNamespaceIdNoCheck 0xBFFB42A19116BDF6].

(** ** Instances for the client

    Sample data for the parameters of the client code. *)

(** A sample of [url.Parse]: a text that starts with a colon has no scheme
    and is rejected; any other text stands for its host. *)
Definition sampleUrlParse (s : string) : outcome string :=
  match s with
  | String ":" _ => Err (ErrExternal 1)
  | _ => Ok s
  end.

Definition sampleErrorsNew (msg : string) : error := ErrExternal 0.

(** A sample network: the first two requests fail with a URL error, the
    third is answered. *)
Definition sampleWorld (k : nat) : outcome Response :=
  if (k <? 2)%nat then Err (ErrExternal 7) else Ok (mkResponse 200).

Definition sampleIsUrlError (e : error) : bool :=
  match e with
  | ErrExternal 7 => true
  | _ => false
  end.

(** A sample of the decimal fractions behind [float64]: numerator and
    denominator. *)
Definition sampleFloat : Type := (Z * Z)%type.

Definition sampleNewRequest (c : Config sampleFloat) : outcome string :=
  Ok (URL_Host (UsedBaseUrl sampleFloat c)).

Definition sampleConfig : Config sampleFloat :=
  let urls := [mkURL 0 "a.example:3000"; mkURL 1 "b.example:3000";
               mkURL 2 "c.example:3000"] in
  mkConfig sampleFloat None urls (mkURL 0 "a.example:3000") 5000000000 144.

(** Sample alias types, and a mosaic DTO that is the identifier itself. *)
Definition sampleToStruct (dto : Z) : outcome (option Z) := Ok (Some dto).

(** * Properties *)

(** ** The models of the library, run on known vectors *)

Example base32_encode_foobar :
  GoBase32.EncodeToString (bytes_of_string "foobar") = "MZXW6YTBOI======"%string
  /\ GoBase32.EncodeToString (bytes_of_string "f") = "MY======"%string
  /\ GoBase32.EncodeToString (bytes_of_string "fo") = "MZXQ===="%string
  /\ GoBase32.EncodeToString (bytes_of_string "foo") = "MZXW6==="%string
  /\ GoBase32.EncodeToString (bytes_of_string "foob") = "MZXW6YQ="%string
  /\ GoBase32.EncodeToString (bytes_of_string "fooba") = "MZXW6YTB"%string.
Proof. vm_compute. repeat split. Qed.

Example base32_decode_foobar :
  GoBase32.DecodeString "MZXW6YTBOI======" = Ok (bytes_of_string "foobar")
  /\ GoBase32.DecodeString "MY======" = Ok (bytes_of_string "f")
  /\ GoBase32.DecodeString "MZXQ====" = Ok (bytes_of_string "fo")
  /\ GoBase32.DecodeString "MZXW6===" = Ok (bytes_of_string "foo")
  /\ GoBase32.DecodeString "MZXW6YQ=" = Ok (bytes_of_string "foob")
  /\ GoBase32.DecodeString "MZXW6YTB" = Ok (bytes_of_string "fooba")
  /\ GoBase32.DecodeString "MZXW6YT" = Err CorruptInputError
  /\ GoBase32.DecodeString "mzxw6ytb" = Err CorruptInputError
  /\ GoBase32.DecodeString "MZXW6-YTB" = Err CorruptInputError
  /\ GoBase32.DecodeString "" = Ok [].
Proof. vm_compute. repeat split. Qed.

Example hex_examples :
  GoHex.EncodeToString [145; 0; 255; 10] = "9100ff0a"%string
  /\ GoHex.DecodeString "9100fF0A" = Ok [145; 0; 255; 10]
  /\ GoHex.DecodeString "910" = Err ErrLength
  /\ GoHex.DecodeString "9g0" = Err (InvalidByteError 103)
  /\ GoFmt.SprintfX 145 = "91"%string
  /\ GoFmt.SprintfX 0 = "0"%string
  /\ GoFmt.SprintfX 2748 = "ABC"%string.
Proof. vm_compute. repeat split. Qed.

Example sha3_256_vectors :
  Sha3.sha3_256 []
    = [0xa7; 0xff; 0xc6; 0xf8; 0xbf; 0x1e; 0xd7; 0x66; 0x51; 0xc1; 0x47; 0x56;
       0xa0; 0x61; 0xd6; 0x62; 0xf5; 0x80; 0xff; 0x4d; 0xe4; 0x3b; 0x49; 0xfa;
       0x82; 0xd8; 0x0a; 0x4b; 0x80; 0xf8; 0x43; 0x4a]
  /\ Sha3.sha3_256 (bytes_of_string "abc")
    = [0x3a; 0x98; 0x5d; 0xa7; 0x4f; 0xe2; 0x25; 0xb2; 0x04; 0x5c; 0x17; 0x2d;
       0x6b; 0xd3; 0x90; 0xbd; 0x85; 0x5f; 0x08; 0x6e; 0x3e; 0x9d; 0x52; 0x5b;
       0x46; 0xbf; 0xe2; 0x45; 0x11; 0x43; 0x15; 0x32].
Proof. vm_compute. split; reflexivity. Qed.

Example namespace_id_vectors :
  generateNamespaceId_spec "nem" (NewNamespaceIdNoCheck 0) = Ok sampleNamespaceId
  /\ GenerateNamespacePath regValidNamespace_spec generateNamespaceId_spec "prx.xpx"
     = Ok samplePath
  /\ NewNamespaceIdFromName regValidNamespace_spec generateNamespaceId_spec "prx.xpx"
     = Ok (NewNamespaceIdNoCheck 0xBFFB42A19116BDF6).
Proof. vm_compute. repeat split. Qed.

(** ** Namespace identifiers *)

Lemma NamespaceBit_pow2 : NamespaceBit = 2 ^ 63.
Proof. reflexivity. Qed.

Lemma hasBits_NamespaceBit (id : Z) : hasBits id NamespaceBit = Z.testbit id 63.
Proof.
  unfold hasBits. rewrite NamespaceBit_pow2.
  destruct (Z.testbit id 63) eqn:Hbit.
  - apply Z.eqb_eq, Z.bits_inj'. intros n Hn.
  rewrite Z.land_spec, Z.pow2_bits_eqb by lia.
  destruct (Z.eqb_spec 63 n) as [<-|_]; [now rewrite Hbit | apply andb_false_r].
  - apply Z.eqb_neq. intros Heq.
  assert (Hb : Z.testbit (Z.land id (2 ^ 63)) 63 = true)
    by (rewrite Heq; now rewrite Z.pow2_bits_eqb by lia).
  rewrite Z.land_spec, Hbit in Hb. discriminate.
Qed.

Lemma Id_NewNamespaceIdNoCheck (id : Z) :
  0 <= id < 2 ^ 64 -> Id (NewNamespaceIdNoCheck id) = id.
Proof.
  intros Hid. unfold Id, NewNamespaceIdNoCheck, uint64, baseInt64. cbn [namespaceBase].
  rewrite (Z.mod_small id) by lia.
  destruct (Z.ltb_spec id (2 ^ 63)).
  - apply Z.mod_small. lia.
  - symmetry. apply (Z.mod_unique_pos _ _ (-1)); lia.
Qed.

(** C2. [NewNamespaceId] returns the wrong-bit error exactly for a nonzero
  [id] whose bit 63 is clear; for 0 and for every [id] with bit 63 set it
  succeeds, and [Id()] of the result is [id]. *)
Theorem NewNamespaceId_wrong_bit_iff (id : Z) :
  0 <= id < 2 ^ 64 ->
  (NewNamespaceId id = Err ErrWrongBitNamespaceId
   <-> id <> 0 /\ Z.testbit id 63 = false)
  /\ (id = 0 \/ Z.testbit id 63 = true ->
    exists n, NewNamespaceId id = Ok n /\ Id n = id).
Proof.
  intros Hid. unfold NewNamespaceId. rewrite hasBits_NamespaceBit.
  destruct (Z.eqb_spec id 0) as [H0|H0], (Z.testbit id 63) eqn:Hbit; cbn.
  - split; [split; [discriminate | intros [? _]; contradiction] |].
  intros _. eexists. split; [reflexivity | now apply Id_NewNamespaceIdNoCheck].
  - split; [split; [discriminate | intros [? _]; contradiction] |].
  intros _. eexists. split; [reflexivity | now apply Id_NewNamespaceIdNoCheck].
  - split; [split; [discriminate | intros [_ ?]; discriminate] |].
  intros _. eexists. split; [reflexivity | now apply Id_NewNamespaceIdNoCheck].
  - split; [split; [intros _; now split | reflexivity] |].
  intros [?|?]; [contradiction | discriminate].
Qed.

Lemma NewNamespaceId_wrong_bit_iff_witness :
  (NewNamespaceId 5 = Err ErrWrongBitNamespaceId
   <-> 5 <> 0 /\ Z.testbit 5 63 = false)
  /\ (5 = 0 \/ Z.testbit 5 63 = true ->
    exists n, NewNamespaceId 5 = Ok n /\ Id n = 5).
Proof. apply (NewNamespaceId_wrong_bit_iff 5). lia. Defined.

(** ** Namespace paths *)

Lemma Split_nonempty (s : string) (sep : ascii) : GoStrings.Split s sep <> [].
Proof.
  destruct s as [|c s]; cbn; [discriminate |].
  destruct (Ascii.eqb c sep); [discriminate |].
  destruct (GoStrings.Split s sep); discriminate.
Qed.

Lemma Split_length (s : string) (sep : ascii) :
  length (GoStrings.Split s sep) = S (countByte sep s).
Proof.
  induction s as [|c s IH]; cbn; [reflexivity |].
  destruct (Ascii.eqb c sep); cbn; [now rewrite IH |].
  destruct (GoStrings.Split s sep) eqn:E; cbn in *; [discriminate | exact IH].
Qed.

Section NamespacePathProperties.

Variable regValidNamespace : string -> bool.
Variable generateNamespaceId : string -> NamespaceId -> outcome NamespaceId.

Lemma pathLoop_Ok parts : forall namespaceId acc path,
  pathLoop regValidNamespace generateNamespaceId parts namespaceId acc = Ok path ->
  exists ids, path = acc ++ ids
    /\ chain generateNamespaceId namespaceId parts ids
    /\ Forall (fun part => regValidNamespace part = true) parts.
Proof.
  induction parts as [|part parts IH]; intros ns acc path; cbn.
  - intros [= <-]. exists []. rewrite app_nil_r. repeat constructor.
  - destruct (regValidNamespace part) eqn:Hv; cbn; [| discriminate].
    destruct (generateNamespaceId part ns) as [id| |] eqn:Hg; cbn; try discriminate.
    intros Hloop. destruct (IH _ _ _ Hloop) as (ids & -> & Hch & Hall).
    exists (id :: ids). rewrite <- app_assoc.
    split; [reflexivity |]. split; [now constructor | now constructor].
Qed.

Lemma pathLoop_complete parts : forall namespaceId acc ids,
  Forall (fun part => regValidNamespace part = true) parts ->
  chain generateNamespaceId namespaceId parts ids ->
  pathLoop regValidNamespace generateNamespaceId parts namespaceId acc
    = Ok (acc ++ ids).
Proof.
  induction parts as [|part parts IH]; intros ns acc ids Hall Hch;
    inversion Hch; subst; cbn.
  - now rewrite app_nil_r.
  - inversion Hall; subst.
    match goal with H : regValidNamespace _ = true |- _ => rewrite H end.
    match goal with H : generateNamespaceId _ _ = Ok _ |- _ => rewrite H end.
    cbn. rewrite (IH _ _ ids0) by assumption. now rewrite <- app_assoc.
Qed.

Lemma chain_length parent parts ids :
  chain generateNamespaceId parent parts ids -> length ids = length parts.
Proof. induction 1; cbn; congruence. Qed.

Lemma chain_lookup parent parts ids :
  chain generateNamespaceId parent parts ids ->
  forall (i : nat) part, parts !! i = Some part ->
    exists id, ids !! i = Some id
      /\ generateNamespaceId part (parentAt parent ids i) = Ok id.
Proof.
  induction 1 as [|parent part0 id0 parts ids Hgen Hch IH]; intros i part Hi.
  - destruct i; discriminate.
  - destruct i as [|i]; cbn in Hi.
    + injection Hi as <-. exists id0. now split.
    + destruct (IH _ _ Hi) as (id & Hid & Hg). exists id. split; [exact Hid |].
      destruct i as [|k]; cbn in *; [exact Hg |].
      destruct (ids !! k) eqn:Hk; cbn in *; [exact Hg |].
      apply lookup_ge_None in Hk. apply lookup_lt_Some in Hid. lia.
Qed.

(** C1. A name that [GenerateNamespacePath] accepts has 1 to 3 segments,
    each matching the name grammar; the returned list has one identifier
    per segment, in segment order, and is a hash chain: element 0 is
    [generateNamespaceId] of segment 0 and the sentinel 0, element [i >= 1]
    is [generateNamespaceId] of segment [i] and element [i - 1]. *)
Theorem GenerateNamespacePath_chain (name : string) (path : list NamespaceId) :
  GenerateNamespacePath regValidNamespace generateNamespaceId name = Ok path ->
  let parts := GoStrings.Split name "." in
  (1 <= length parts <= 3)%nat
  /\ Forall (fun part => regValidNamespace part = true) parts
  /\ length path = length parts
  /\ forall (i : nat) part, parts !! i = Some part ->
       exists id, path !! i = Some id
         /\ generateNamespaceId part
              (parentAt (NewNamespaceIdNoCheck 0) path i) = Ok id.
Proof.
  intros H parts. unfold GenerateNamespacePath in H. fold parts in H.
  destruct (Nat.eqb_spec (length parts) 0) as [|Hne]; [discriminate |].
  destruct (Nat.ltb_spec 3 (length parts)) as [|Hle]; [discriminate |].
  apply pathLoop_Ok in H as (ids & -> & Hch & Hall). cbn [app].
  repeat split; [lia | lia | exact Hall | eapply chain_length; eauto |].
  now apply chain_lookup.
Qed.

(** The other direction: a name of 1 to 3 valid segments along which the
    derivation step succeeds is accepted, with the chain as result. *)
Lemma GenerateNamespacePath_accepts (name : string) (ids : list NamespaceId) :
  (length (GoStrings.Split name ".") <= 3)%nat ->
  Forall (fun part => regValidNamespace part = true) (GoStrings.Split name ".") ->
  chain generateNamespaceId (NewNamespaceIdNoCheck 0) (GoStrings.Split name ".") ids ->
  GenerateNamespacePath regValidNamespace generateNamespaceId name = Ok ids.
Proof.
  intros Hle Hall Hch. unfold GenerateNamespacePath.
  pose proof (Split_nonempty name ".") as Hne.
  destruct (Nat.eqb_spec (length (GoStrings.Split name ".")) 0) as [H0|_].
  { destruct (GoStrings.Split name "."); [contradiction | discriminate]. }
  destruct (Nat.ltb_spec 3 (length (GoStrings.Split name "."))); [lia |].
  now rewrite (pathLoop_complete _ _ _ ids).
Qed.

(** C7. With a grammar that rejects the empty segment, the names "" and
    "." fail with the invalid-name error, and every name of more than 3
    segments (3 dots or more), such as "a.b.c.d", fails with the
    too-many-parts error. *)
Theorem GenerateNamespacePath_rejects :
  regValidNamespace "" = false ->
  GenerateNamespacePath regValidNamespace generateNamespaceId ""
    = Err ErrInvalidNamespaceName
  /\ GenerateNamespacePath regValidNamespace generateNamespaceId "."
    = Err ErrInvalidNamespaceName
  /\ (forall name, (3 <= countByte "." name)%nat ->
       GenerateNamespacePath regValidNamespace generateNamespaceId name
         = Err ErrNamespaceTooManyPart)
  /\ GenerateNamespacePath regValidNamespace generateNamespaceId "a.b.c.d"
    = Err ErrNamespaceTooManyPart.
Proof.
  intros Hempty.
  assert (Hmany : forall name, (3 <= countByte "." name)%nat ->
    GenerateNamespacePath regValidNamespace generateNamespaceId name
      = Err ErrNamespaceTooManyPart).
  { intros name Hdots. unfold GenerateNamespacePath.
    rewrite Split_length. cbn [Nat.eqb].
    destruct (Nat.ltb_spec 3 (S (countByte "." name))); [reflexivity | lia]. }
  split; [| split; [| split]].
  - unfold GenerateNamespacePath. cbn. now rewrite Hempty.
  - unfold GenerateNamespacePath. cbn. now rewrite Hempty.
  - exact Hmany.
  - apply Hmany. cbn. lia.
Qed.

End NamespacePathProperties.

(** ** Bytes, bit by bit *)

Lemma fits_land_ones (k x : Z) : 0 <= k -> fits k x <-> Z.land x (Z.ones k) = x.
Proof.
  intros Hk. rewrite Z.land_ones by exact Hk. unfold fits. split.
  - intros H. now apply Z.mod_small.
  - intros <-. apply Z.mod_pos_bound. lia.
Qed.

Lemma fits_land (k x m : Z) : 0 <= k -> fits k m -> fits k (Z.land x m).
Proof.
  intros Hk Hm. apply fits_land_ones in Hm; [| exact Hk].
  apply fits_land_ones; [exact Hk |]. now rewrite <- Z.land_assoc, Hm.
Qed.

Lemma fits_lor (k a b : Z) : 0 <= k -> fits k a -> fits k b -> fits k (Z.lor a b).
Proof.
  intros Hk Ha Hb. apply fits_land_ones in Ha, Hb; try exact Hk.
  apply fits_land_ones; [exact Hk |]. now rewrite Z.land_lor_distr_l, Ha, Hb.
Qed.

Lemma fits_shiftr (k x j : Z) : 0 <= j -> fits k x -> fits k (Z.shiftr x j).
Proof.
  intros Hj [Hx0 Hx]. unfold fits. rewrite Z.shiftr_div_pow2 by exact Hj.
  assert (0 < 2 ^ j) by lia. split; [apply Z.div_pos; lia |].
  apply Z.le_lt_trans with x; [| exact Hx]. apply Z.div_le_upper_bound; nia.
Qed.

Lemma fits_mono (j k x : Z) : 0 <= j <= k -> fits j x -> fits k x.
Proof.
  intros Hjk [H0 Hx]. split; [exact H0 |].
  apply Z.lt_le_trans with (2 ^ j); [exact Hx | apply Z.pow_le_mono_r; lia].
Qed.

Lemma fits_uint8 (x : Z) : fits 8 (uint8 x).
Proof. apply fits_land; [lia | unfold fits; lia]. Qed.

Lemma testbit_above (k x n : Z) : fits k x -> k <= n -> Z.testbit x n = false.
Proof.
  intros [H0 Hx] Hn. destruct (Z.eq_dec x 0) as [->|Hne]; [apply Z.bits_0 |].
  apply Z.bits_above_log2; [exact H0 |].
  apply Z.lt_le_trans with k; [| exact Hn]. apply Z.log2_lt_pow2; lia.
Qed.

Lemma byte_ext (a b : Z) :
  fits 8 a -> fits 8 b ->
  Z.testbit a 0 = Z.testbit b 0 -> Z.testbit a 1 = Z.testbit b 1 ->
  Z.testbit a 2 = Z.testbit b 2 -> Z.testbit a 3 = Z.testbit b 3 ->
  Z.testbit a 4 = Z.testbit b 4 -> Z.testbit a 5 = Z.testbit b 5 ->
  Z.testbit a 6 = Z.testbit b 6 -> Z.testbit a 7 = Z.testbit b 7 ->
  a = b.
Proof.
  intros Ha Hb H0 H1 H2 H3 H4 H5 H6 H7. apply Z.bits_inj'. intros n Hn.
  destruct (Z_lt_le_dec n 8) as [Hlt|Hge].
  - assert (Hc : n = 0 \/ n = 1 \/ n = 2 \/ n = 3 \/ n = 4 \/ n = 5 \/ n = 6 \/ n = 7)
      by lia.
    destruct Hc as [->|[->|[->|[->|[->|[->|[->| ->]]]]]]]; assumption.
  - now rewrite (testbit_above 8 a n), (testbit_above 8 b n).
Qed.

(** Bit [k] of an expression over [Z.lor], [Z.land], [Z.shiftl], [Z.shiftr]
    and constants, for a closed [k]: push [Z.testbit] to the variables. *)
Ltac testbit_step :=
  match goal with
  | |- context [Z.testbit (Z.lor _ _) _] => rewrite Z.lor_spec
  | |- context [Z.testbit (Z.land _ _) _] => rewrite Z.land_spec
  | |- context [Z.testbit (Z.shiftr _ _) _] => rewrite Z.shiftr_spec by lia
  | |- context [Z.testbit (Z.shiftl _ _) ?k] =>
      first [ rewrite (Z.shiftl_spec _ _ k) by lia ]
  | |- context [Z.testbit _ (?i + ?j)] =>
      let v := eval vm_compute in (i + j) in progress change (i + j) with v
  | |- context [Z.testbit _ (?i - ?j)] =>
      let v := eval vm_compute in (i - j) in progress change (i - j) with v
  | |- context [Z.testbit ?c ?k] =>
      let v := eval vm_compute in (Z.testbit c k) in
      match v with
      | true => progress change (Z.testbit c k) with true
      | false => progress change (Z.testbit c k) with false
      end
  | |- context [Z.testbit ?a (Z.neg ?p)] =>
      rewrite (Z.testbit_neg_r a (Z.neg p)) by lia
  | H : fits ?w ?s |- context [Z.testbit ?s ?k] =>
      rewrite (testbit_above w s k H) by lia
  end.

Ltac testbits :=
  unfold uint8; repeat testbit_step;
  repeat match goal with
    | |- context [Z.testbit ?s ?k] => destruct (Z.testbit s k)
    end;
  reflexivity.


Ltac fits_solve :=
  unfold uint8;
  repeat match goal with
    | H : fits ?k ?x |- fits ?k ?x => exact H
    | |- fits _ (Z.lor _ _) => apply fits_lor; [lia | |]
    | |- fits _ (Z.shiftr _ _) => apply fits_shiftr; [lia |]
    | |- fits _ (Z.land _ _) => apply fits_land; [lia | unfold fits; lia]
    end.

Ltac byte_eq :=
  apply byte_ext; [fits_solve | fits_solve | testbits ..].

(** A property checked on every number below [n] holds below [n]. *)
Lemma forall_below (P : Z -> bool) (n : nat) :
  forallb P (map Z.of_nat (seq 0 n)) = true ->
  forall v, 0 <= v < Z.of_nat n -> P v = true.
Proof.
  intros Hall v Hv. rewrite forallb_forall in Hall. apply Hall.
  apply in_map_iff. exists (Z.to_nat v). split; [lia |].
  apply in_seq. lia.
Qed.

(** ** Base32: decoding what was encoded *)

Lemma pack_blocks (s0 s1 s2 s3 s4 : Z) :
  fits 8 s0 -> fits 8 s1 -> fits 8 s2 -> fits 8 s3 -> fits 8 s4 ->
  GoBase32.pack (map (fun b => Z.land b 31) (GoBase32.blocks [s0; s1; s2; s3; s4])) 8
    = [s0; s1; s2; s3; s4].
Proof.
  intros H0 H1 H2 H3 H4. unfold GoBase32.pack, GoBase32.blocks. cbn [map nth].
  repeat f_equal; byte_eq.
Qed.

Lemma encodeChar_spec (v : Z) :
  0 <= v < 32 ->
  isBase32Byte (GoBase32.encodeChar v) = true
  /\ GoBase32.decodeMap (GoBase32.encodeChar v) = v.
Proof.
  intros Hv.
  assert (H : (isBase32Byte (GoBase32.encodeChar v)
               && (GoBase32.decodeMap (GoBase32.encodeChar v) =? v)) = true).
  { revert v Hv. apply (forall_below _ 32). vm_compute. reflexivity. }
  apply andb_true_iff in H as [H1 H2]. split; [exact H1 | lia].
Qed.

Lemma isBase32Byte_range (c : Z) :
  isBase32Byte c = true -> 65 <= c <= 90 \/ 50 <= c <= 55.
Proof. unfold isBase32Byte. lia. Qed.

Lemma blocks_fits (src : list Z) :
  Forall (fun v => 0 <= v < 32) (map (fun b => Z.land b 31) (GoBase32.blocks src)).
Proof.
  unfold GoBase32.blocks. cbn [map].
  repeat constructor; try (apply Z.land_nonneg; lia);
    change 31 with (Z.ones 5); rewrite Z.land_ones by lia;
    apply Z.mod_pos_bound; lia.
Qed.

Lemma decode_data_char (v : Z) (src : list Z) (j : nat) (dbuf : list Z) :
  0 <= v < 32 ->
  GoBase32.decode (GoBase32.encodeChar v :: src) j dbuf =
    if (S j =? 8)%nat
    then let* more := GoBase32.decode src 0%nat [] in
         Ok (GoBase32.pack (dbuf ++ [v]) 8 ++ more)
    else GoBase32.decode src (S j) (dbuf ++ [v]).
Proof.
  intros Hv. destruct (encodeChar_spec v Hv) as [Hc Hd].
  apply isBase32Byte_range in Hc. cbn [GoBase32.decode].
  replace (GoBase32.encodeChar v =? GoBase32.padChar) with false
    by (symmetry; apply Z.eqb_neq; unfold GoBase32.padChar; lia).
  cbn [andb]. rewrite Hd.
  replace (v =? 255) with false by (symmetry; apply Z.eqb_neq; lia).
  reflexivity.
Qed.

Lemma decode_quantum (s0 s1 s2 s3 s4 : Z) (rest : list Z) :
  fits 8 s0 -> fits 8 s1 -> fits 8 s2 -> fits 8 s3 -> fits 8 s4 ->
  GoBase32.decode (GoBase32.quantumChars [s0; s1; s2; s3; s4] ++ rest) 0%nat [] =
    let* more := GoBase32.decode rest 0%nat [] in
    Ok ([s0; s1; s2; s3; s4] ++ more).
Proof.
  intros H0 H1 H2 H3 H4.
  pose proof (pack_blocks s0 s1 s2 s3 s4 H0 H1 H2 H3 H4) as Hp.
  pose proof (blocks_fits [s0; s1; s2; s3; s4]) as Hb.
  unfold GoBase32.quantumChars.
  rewrite <- (map_map (fun b => Z.land b 31) GoBase32.encodeChar).
  destruct (map (fun b => Z.land b 31) (GoBase32.blocks [s0; s1; s2; s3; s4]))
    as [|v0 [|v1 [|v2 [|v3 [|v4 [|v5 [|v6 [|v7 [|]]]]]]]]] eqn:E;
    try discriminate E.
  repeat match goal with H : Forall _ (_ :: _) |- _ => inversion H; clear H; subst end.
  cbn [map app].
  repeat (rewrite decode_data_char by assumption; cbn [Nat.eqb app]).
  now rewrite Hp.
Qed.

Lemma byte_of_ascii_fits (c : ascii) : fits 8 (byte_of_ascii c).
Proof.
  unfold fits, byte_of_ascii. pose proof (N_ascii_bounded c).
  change (2 ^ 8) with (Z.of_N 256). lia.
Qed.

Lemma byte_of_ascii_of_byte (b : Z) :
  fits 8 b -> byte_of_ascii (ascii_of_byte b) = b.
Proof.
  intros [H0 Hb]. unfold byte_of_ascii, ascii_of_byte.
  rewrite N_ascii_embedding; [lia |]. change (2 ^ 8) with (Z.of_N 256) in Hb. lia.
Qed.

Lemma ascii_of_byte_of_ascii (c : ascii) : ascii_of_byte (byte_of_ascii c) = c.
Proof.
  unfold byte_of_ascii, ascii_of_byte. rewrite N2Z.id. apply ascii_N_embedding.
Qed.

Lemma bytes_of_string_of_bytes (l : list Z) :
  Forall (fits 8) l -> bytes_of_string (string_of_bytes l) = l.
Proof.
  induction 1 as [|b l Hb _ IH]; cbn; [reflexivity |].
  now rewrite byte_of_ascii_of_byte, IH.
Qed.

Lemma string_of_bytes_of_string (s : string) :
  string_of_bytes (bytes_of_string s) = s.
Proof.
  induction s as [|c s IH]; cbn; [reflexivity |].
  now rewrite ascii_of_byte_of_ascii, IH.
Qed.

Lemma bytes_of_string_app (s t : string) :
  bytes_of_string (s +:+ t) = bytes_of_string s ++ bytes_of_string t.
Proof. induction s as [|c s IH]; simpl; [reflexivity | now rewrite IH]. Qed.

Lemma bytes_of_string_fits (s : string) : Forall (fits 8) (bytes_of_string s).
Proof. induction s; cbn; constructor; auto using byte_of_ascii_fits. Qed.

Lemma quantumChars_base32 (src : list Z) :
  Forall (fun c => isBase32Byte c = true) (GoBase32.quantumChars src).
Proof.
  unfold GoBase32.quantumChars.
  rewrite <- (map_map (fun b => Z.land b 31) GoBase32.encodeChar).
  pose proof (blocks_fits src) as Hb. induction Hb; cbn; constructor; auto.
  now apply encodeChar_spec.
Qed.

Lemma Encode_quanta_base32 (src : list Z) :
  quanta src -> Forall (fun c => isBase32Byte c = true) (GoBase32.Encode src).
Proof.
  induction 1; [constructor |].
  cbn [GoBase32.Encode]. apply Forall_app. split; [apply quantumChars_base32 | assumption].
Qed.

Lemma decode_Encode_quanta (src : list Z) :
  quanta src -> GoBase32.decode (GoBase32.Encode src) 0%nat [] = Ok src.
Proof.
  induction 1 as [|s0 s1 s2 s3 s4 rest H0 H1 H2 H3 H4 _ IH]; [reflexivity |].
  cbn [GoBase32.Encode]. rewrite decode_quantum by assumption. now rewrite IH.
Qed.

Lemma isBase32Byte_fits (c : Z) : isBase32Byte c = true -> fits 8 c.
Proof. intros H. apply isBase32Byte_range in H. unfold fits. lia. Qed.

Lemma stripNewlines_base32 (l : list Z) :
  Forall (fun c => isBase32Byte c = true) l -> GoBase32.stripNewlines l = l.
Proof.
  unfold GoBase32.stripNewlines.
  induction 1 as [|c l Hc _ IH]; [reflexivity |].
  apply isBase32Byte_range in Hc.
  rewrite filter_cons_True by lia. now rewrite IH.
Qed.

(** Decoding the base32 text of whole quanta gives the bytes back. *)
Lemma DecodeString_EncodeToString (src : list Z) :
  quanta src -> GoBase32.DecodeString (GoBase32.EncodeToString src) = Ok src.
Proof.
  intros Hq. pose proof (Encode_quanta_base32 src Hq) as Hb.
  unfold GoBase32.DecodeString, GoBase32.EncodeToString.
  rewrite bytes_of_string_of_bytes
    by (eapply Forall_impl; [exact Hb | exact isBase32Byte_fits]).
  rewrite stripNewlines_base32 by exact Hb. now apply decode_Encode_quanta.
Qed.

(** ** Hexadecimal text *)

Lemma hexByteOk_all (v : Z) : fits 8 v -> hexByteOk v = true.
Proof.
  intros Hv. revert v Hv. apply (forall_below _ 256). vm_compute. reflexivity.
Qed.

Lemma Decode_EncodeToString (l rest : list Z) :
  Forall (fits 8) l ->
  GoHex.Decode (bytes_of_string (GoHex.EncodeToString l) ++ rest) =
    let* tl := GoHex.Decode rest in Ok (l ++ tl).
Proof.
  induction 1 as [|v l Hv _ IH]; [cbn; now destruct (GoHex.Decode rest) |].
  cbn [GoHex.EncodeToString bytes_of_string app GoHex.Decode].
  pose proof (hexByteOk_all v Hv) as Hok. unfold hexByteOk in Hok.
  destruct (GoHex.fromHexChar (byte_of_ascii (GoHex.hexChar (Z.shiftr v 4))))
    as [a|]; [| discriminate].
  destruct (GoHex.fromHexChar (byte_of_ascii (GoHex.hexChar (Z.land v 15))))
    as [b|]; [| discriminate].
  apply Z.eqb_eq in Hok. rewrite Hok, IH.
  now destruct (GoHex.Decode rest).
Qed.

(** ** Little-endian bytes *)

Lemma PutUint64_fits (v : Z) : Forall (fits 8) (GoBinary.PutUint64 v).
Proof. unfold GoBinary.PutUint64. cbn [map]. repeat constructor; apply fits_uint8. Qed.

Lemma PutUint64_length (v : Z) : length (GoBinary.PutUint64 v) = 8%nat.
Proof. reflexivity. Qed.

(** Byte [i] of the encoding is digit [i] of [v] in base 256. *)
Lemma PutUint64_digit (v : Z) (i : nat) :
  (i < 8)%nat ->
  GoBinary.PutUint64 v !! i = Some ((v / 256 ^ Z.of_nat i) mod 256).
Proof.
  intros Hi. unfold GoBinary.PutUint64, uint8.
  assert (Hb : forall k, 0 <= k -> Z.land (Z.shiftr v (8 * k)) 255 = (v / 256 ^ k) mod 256).
  { intros k Hk. change 255 with (Z.ones 8). rewrite Z.land_ones by lia.
    rewrite Z.shiftr_div_pow2 by lia. rewrite Z.pow_mul_r by lia. reflexivity. }
  do 8 (destruct i as [|i]; [cbn [map lookup list_lookup]; f_equal; apply Hb; lia |]).
  lia.
Qed.

Lemma PutUint64_testbit (v : Z) (i : nat) (b k : Z) :
  GoBinary.PutUint64 v !! i = Some b -> 0 <= k < 8 ->
  Z.testbit b k = Z.testbit v (8 * Z.of_nat i + k).
Proof.
  intros Hb Hk.
  assert (Hi : (i < 8)%nat) by (apply lookup_lt_Some in Hb; exact Hb).
  rewrite PutUint64_digit in Hb by exact Hi. injection Hb as <-.
  change 256 with (2 ^ 8). rewrite <- Z.pow_mul_r by lia.
  rewrite Z.mod_pow2_bits_low by lia.
  rewrite <- Z.shiftr_div_pow2 by lia. rewrite Z.shiftr_spec by lia.
  f_equal. lia.
Qed.

Lemma PutUint64_inj (v w : Z) :
  fits 64 v -> fits 64 w -> GoBinary.PutUint64 v = GoBinary.PutUint64 w -> v = w.
Proof.
  intros Hv Hw Heq. apply Z.bits_inj'. intros n Hn.
  destruct (Z_lt_le_dec n 64) as [Hlt|Hge].
  - assert (Hi : (Z.to_nat (n / 8) < 8)%nat).
    { assert (n / 8 < 8) by (apply Z.div_lt_upper_bound; lia).
      assert (0 <= n / 8) by (apply Z.div_pos; lia). lia. }
    destruct (lookup_lt_is_Some_2 (GoBinary.PutUint64 v) (Z.to_nat (n / 8))) as [b Hb].
    { now rewrite PutUint64_length. }
    assert (Hn8 : n = 8 * Z.of_nat (Z.to_nat (n / 8)) + n mod 8).
    { rewrite Z2Nat.id by (apply Z.div_pos; lia). apply Z.div_mod. lia. }
    assert (Hk : 0 <= n mod 8 < 8) by (apply Z.mod_pos_bound; lia).
    rewrite Hn8.
    rewrite <- (PutUint64_testbit v _ b (n mod 8)) by assumption.
    rewrite Heq in Hb.
    now rewrite <- (PutUint64_testbit w _ b (n mod 8)) by assumption.
  - now rewrite (testbit_above 64 v n), (testbit_above 64 w n).
Qed.

Lemma Id_fits (n : NamespaceId) : fits 64 (Id n).
Proof. unfold fits, Id, uint64. apply Z.mod_pos_bound. lia. Qed.

(** ** Normalisation in [NewAddress] *)

Lemma allBytes_app (P : Z -> bool) (s t : string) :
  allBytes P (s +:+ t) = allBytes P s && allBytes P t.
Proof. unfold allBytes. now rewrite bytes_of_string_app, forallb_app. Qed.

Lemma allBytes_impl (P Q : Z -> bool) (s : string) :
  (forall c, P c = true -> Q c = true) -> allBytes P s = true -> allBytes Q s = true.
Proof.
  unfold allBytes. intros HPQ. rewrite !forallb_forall. auto.
Qed.

Lemma isBase32Byte_canonical (c : Z) : isBase32Byte c = true -> isCanonicalByte c = true.
Proof. intros H. apply isBase32Byte_range in H. unfold isCanonicalByte. lia. Qed.

Lemma ascii_eqb_byte (c d : ascii) :
  Ascii.eqb c d = (byte_of_ascii c =? byte_of_ascii d).
Proof.
  destruct (Ascii.eqb_spec c d) as [->|Hne]; [now rewrite Z.eqb_refl |].
  symmetry. apply Z.eqb_neq. intros Heq. apply Hne.
  rewrite <- (ascii_of_byte_of_ascii c), <- (ascii_of_byte_of_ascii d). now rewrite Heq.
Qed.

Lemma append_cons (c : ascii) (s t : string) : String c s +:+ t = String c (s +:+ t).
Proof. reflexivity. Qed.

Lemma append_assoc (s t u : string) : (s +:+ t) +:+ u = s +:+ (t +:+ u).
Proof.
  induction s as [|c s IH]; [reflexivity |]. now rewrite !append_cons, IH.
Qed.

Lemma Replace_app (s t : string) (old : ascii) (new : string) :
  GoStrings.Replace (s +:+ t) old new
    = GoStrings.Replace s old new +:+ GoStrings.Replace t old new.
Proof.
  induction s as [|c s IH]; [reflexivity |].
  rewrite append_cons. cbn [GoStrings.Replace].
  destruct (Ascii.eqb c old); rewrite IH; [| reflexivity].
  now rewrite append_assoc.
Qed.

Lemma Replace_canonical (s : string) :
  allBytes isCanonicalByte s = true -> GoStrings.Replace s "-" "" = s.
Proof.
  unfold allBytes. induction s as [|c s IH]; simpl; [reflexivity |].
  intros H. apply andb_true_iff in H as [Hc Hs].
  rewrite ascii_eqb_byte. change (byte_of_ascii "-") with 45.
  unfold isCanonicalByte in Hc.
  replace (byte_of_ascii c =? 45) with false by lia. now rewrite IH.
Qed.

Lemma ToUpper_canonical (unicodeUpper : string -> string) (s : string) :
  allBytes isCanonicalByte s = true -> GoStrings.ToUpper unicodeUpper s = s.
Proof.
  intros H. unfold GoStrings.ToUpper.
  assert (Hascii : GoStrings.isASCII s = true).
  { unfold GoStrings.isASCII. revert H. apply allBytes_impl.
    unfold isCanonicalByte. intros c Hc. lia. }
  rewrite Hascii. clear Hascii. unfold allBytes in H.
  induction s as [|c s IH]; simpl; [reflexivity |].
  simpl in H. apply andb_true_iff in H as [Hc Hs].
  rewrite IH by exact Hs. f_equal.
  unfold GoStrings.upperByte, GoStrings.isLower, isCanonicalByte in *.
  replace ((97 <=? byte_of_ascii c) && (byte_of_ascii c <=? 122)) with false by lia.
  reflexivity.
Qed.

Lemma NewAddress_canonical (unicodeUpper : string -> string) (s : string) (t : NetworkType) :
  allBytes isCanonicalByte s = true -> NewAddress unicodeUpper s t = mkAddress t s.
Proof.
  intros H. unfold NewAddress.
  now rewrite Replace_canonical, ToUpper_canonical by (try rewrite Replace_canonical; assumption).
Qed.

(** ** Pretty-printing *)

(** The groups of a 40-character text and what [Pretty] makes of them. *)
Lemma Pretty_groups (t : NetworkType) (s : string) :
  String.length s = 40%nat ->
  s = substring 0 6 s +:+ substring 6 6 s +:+ substring 12 6 s
        +:+ substring 18 6 s +:+ substring 24 6 s +:+ substring 30 6 s
        +:+ substring 36 4 s
  /\ Pretty (mkAddress t s)
     = Ok (substring 0 6 s +:+ "-" +:+ substring 6 6 s +:+ "-"
           +:+ substring 12 6 s +:+ "-" +:+ substring 18 6 s +:+ "-"
           +:+ substring 24 6 s +:+ "-" +:+ substring 30 6 s +:+ "-"
           +:+ substring 36 4 s).
Proof.
  intros H.
  do 40 (destruct s as [|? s]; [discriminate H |]).
  destruct s; [| discriminate H].
  split; reflexivity.
Qed.

(** ** Decoding raw address text *)

Lemma decodeMap_base32 (c : Z) :
  isBase32Byte c = true ->
  0 <= GoBase32.decodeMap c < 32 /\ GoBase32.encodeChar (GoBase32.decodeMap c) = c.
Proof.
  intros Hc.
  assert (H : implb (isBase32Byte c)
                ((0 <=? GoBase32.decodeMap c) && (GoBase32.decodeMap c <? 32)
                 && (GoBase32.encodeChar (GoBase32.decodeMap c) =? c)) = true).
  { apply isBase32Byte_range in Hc.
    apply (forall_below
             (fun c => implb (isBase32Byte c)
                ((0 <=? GoBase32.decodeMap c) && (GoBase32.decodeMap c <? 32)
                 && (GoBase32.encodeChar (GoBase32.decodeMap c) =? c))) 128);
      [vm_compute; reflexivity | lia]. }
  rewrite Hc in H. cbn in H. lia.
Qed.

Lemma decode_base32_char (c : Z) (src : list Z) (j : nat) (dbuf : list Z) :
  isBase32Byte c = true ->
  GoBase32.decode (c :: src) j dbuf =
    if (S j =? 8)%nat
    then let* more := GoBase32.decode src 0%nat [] in
         Ok (GoBase32.pack (dbuf ++ [GoBase32.decodeMap c]) 8 ++ more)
    else GoBase32.decode src (S j) (dbuf ++ [GoBase32.decodeMap c]).
Proof.
  intros Hc. destruct (decodeMap_base32 c Hc) as [Hr He].
  rewrite <- He at 1. now apply decode_data_char.
Qed.

Lemma decode_base32_total (q : nat) : forall l : list Z,
  length l = (8 * q)%nat -> Forall (fun c => isBase32Byte c = true) l ->
  exists pH, GoBase32.decode l 0%nat [] = Ok pH /\ length pH = (5 * q)%nat.
Proof.
  induction q as [|q IH]; intros l Hlen Hall.
  - destruct l; [| discriminate]. now exists [].
  - do 8 (destruct l as [|? l]; [cbn in Hlen; lia |]).
    repeat match goal with
      | H : Forall _ (_ :: _) |- _ => inversion H; clear H; subst
      end.
    destruct (IH l) as (pH & Hd & Hl); [cbn in Hlen; lia | assumption |].
    repeat (rewrite decode_base32_char by assumption; cbn [Nat.eqb app]).
    rewrite Hd. cbn [bind]. eexists. split; [reflexivity |].
    rewrite length_app, Hl. cbn. lia.
Qed.

Lemma decode_no_panic (src : list Z) : forall j dbuf,
  GoBase32.decode src j dbuf <> Panic.
Proof.
  induction src as [|c src IH]; intros j dbuf; cbn [GoBase32.decode].
  - destruct (j =? 0)%nat; discriminate.
  - repeat match goal with
      | |- (if ?b then _ else _) <> _ => destruct b
      end; try discriminate; [| apply IH].
    specialize (IH 0%nat []). destruct (GoBase32.decode src 0 []); cbn; congruence.
Qed.

Lemma bytes_of_string_length (s : string) :
  length (bytes_of_string s) = String.length s.
Proof. induction s; cbn; congruence. Qed.

(** A raw address text decodes to 25 bytes. *)
Lemma DecodeString_base32_text (s : string) :
  isBase32Text s = true ->
  exists v rest, GoBase32.DecodeString s = Ok (v :: rest) /\ length (v :: rest) = 25%nat.
Proof.
  unfold isBase32Text, allBytes. intros H. apply andb_true_iff in H as [Hlen Hall].
  apply Nat.eqb_eq in Hlen. rewrite forallb_forall in Hall.
  assert (HF : Forall (fun c => isBase32Byte c = true) (bytes_of_string s)).
  { apply List.Forall_forall. exact Hall. }
  unfold GoBase32.DecodeString. rewrite stripNewlines_base32 by exact HF.
  destruct (decode_base32_total 5 (bytes_of_string s)) as (pH & Hd & Hl);
    [now rewrite bytes_of_string_length | exact HF |].
  destruct pH as [|v rest]; [discriminate Hl |]. now exists v, rest.
Qed.

(** ** Alias addresses *)

Lemma aliasPayload_quanta (n : NamespaceId) : quanta (aliasPayload n).
Proof.
  unfold aliasPayload, GoBinary.PutUint64. cbn [map app replicate].
  repeat (apply quanta_cons;
          [ try apply fits_uint8; unfold fits, AliasAddress; lia .. |]).
  apply quanta_nil.
Qed.

Lemma aliasPayload_length (n : NamespaceId) : length (aliasPayload n) = 25%nat.
Proof. reflexivity. Qed.

Lemma aliasAddressHex_decode (n : NamespaceId) :
  GoHex.DecodeString (aliasAddressHex n) = Ok (aliasPayload n).
Proof.
  unfold GoHex.DecodeString, aliasAddressHex.
  change (GoFmt.SprintfX AliasAddress) with "91"%string.
  rewrite append_assoc, !bytes_of_string_app.
  change (bytes_of_string "91") with [57; 49]. cbn [app GoHex.Decode].
  change (GoHex.fromHexChar 57) with (Some 9).
  change (GoHex.fromHexChar 49) with (Some 1).
  change (Z.lor (uint8 (Z.shiftl 9 4)) 1) with AliasAddress.
  rewrite Decode_EncodeToString by apply PutUint64_fits.
  change (GoHex.Decode (bytes_of_string (GoStrings.Repeat "00" 16)))
    with (Ok (replicate 16 0)).
  reflexivity.
Qed.

Lemma allBytes_string_of_bytes (P : Z -> bool) (l : list Z) :
  Forall (fits 8) l -> allBytes P (string_of_bytes l) = forallb P l.
Proof. intros H. unfold allBytes. now rewrite bytes_of_string_of_bytes. Qed.

Lemma EncodeToString_canonical (p : list Z) :
  quanta p -> allBytes isCanonicalByte (GoBase32.EncodeToString p) = true.
Proof.
  intros Hq. pose proof (Encode_quanta_base32 p Hq) as Hb.
  unfold GoBase32.EncodeToString.
  rewrite allBytes_string_of_bytes
    by (eapply Forall_impl; [exact Hb | exact isBase32Byte_fits]).
  apply forallb_forall. intros c Hc. apply isBase32Byte_canonical.
  rewrite List.Forall_forall in Hb. now apply Hb.
Qed.

Lemma EncodeToString_inj (p q : list Z) :
  quanta p -> quanta q ->
  GoBase32.EncodeToString p = GoBase32.EncodeToString q -> p = q.
Proof.
  intros Hp Hq Heq.
  assert (H : Ok p = Ok q :> outcome (list Z)); [| now injection H].
  now rewrite <- (DecodeString_EncodeToString p Hp),
              <- (DecodeString_EncodeToString q Hq), Heq.
Qed.

Lemma aliasPayload_inj (n1 n2 : NamespaceId) :
  aliasPayload n1 = aliasPayload n2 -> Id n1 = Id n2.
Proof.
  unfold aliasPayload. intros H.
  apply app_inv_head, app_inv_tail in H.
  apply PutUint64_inj; [apply Id_fits | apply Id_fits | exact H].
Qed.

Section AddressProperties.

Variable addressNet : gmap Z NetworkType.
Variable unicodeUpper : string -> string.

(** Parsing the base32 text of whole quanta: the version byte decides. *)
Lemma NewAddressFromRaw_EncodeToString (v : Z) (rest : list Z) :
  quanta (v :: rest) ->
  NewAddressFromRaw addressNet unicodeUpper (GoBase32.EncodeToString (v :: rest)) =
    match addressNet !! v with
    | Some nType => Ok (mkAddress nType (GoBase32.EncodeToString (v :: rest)))
    | None => Err ErrInvalidAddress
    end.
Proof.
  intros Hq. unfold NewAddressFromRaw.
  rewrite DecodeString_EncodeToString by exact Hq. cbn [bind].
  destruct (addressNet !! v); [| reflexivity].
  now rewrite NewAddress_canonical by now apply EncodeToString_canonical.
Qed.

Lemma NewAddressFromNamespace_spec (n : NamespaceId) :
  NewAddressFromNamespace addressNet unicodeUpper n =
    match addressNet !! AliasAddress with
    | Some nType => Ok (mkAddress nType (GoBase32.EncodeToString (aliasPayload n)))
    | None => Err ErrInvalidAddress
    end.
Proof.
  unfold NewAddressFromNamespace, NewAddressFromBase32.
  rewrite aliasAddressHex_decode. cbn [bind].
  apply (NewAddressFromRaw_EncodeToString AliasAddress), (aliasPayload_quanta n).
Qed.

(** C3. The text that [NewAddressFromNamespace] hands on is the hexadecimal
    form of exactly 25 bytes: the version byte 0x91, the 8 bytes of the
    identifier in little-endian order (byte [i] is digit [i] in base 256),
    and 16 zero bytes; the last four bytes, where a key-derived address
    carries a checksum, are zero, and no hash takes part.  That payload,
    base32-encoded, is what is parsed. *)
Theorem NewAddressFromNamespace_layout (n : NamespaceId) :
  GoHex.DecodeString (aliasAddressHex n)
    = Ok ([145] ++ GoBinary.PutUint64 (Id n) ++ replicate 16 0)
  /\ length ([145] ++ GoBinary.PutUint64 (Id n) ++ replicate 16 0) = 25%nat
  /\ (forall i : nat, (i < 8)%nat ->
        GoBinary.PutUint64 (Id n) !! i = Some ((Id n / 256 ^ Z.of_nat i) mod 256))
  /\ drop 21 ([145] ++ GoBinary.PutUint64 (Id n) ++ replicate 16 0) = [0; 0; 0; 0]
  /\ NewAddressFromNamespace addressNet unicodeUpper n
     = NewAddressFromRaw addressNet unicodeUpper
         (GoBase32.EncodeToString ([145] ++ GoBinary.PutUint64 (Id n) ++ replicate 16 0)).
Proof.
  split; [apply aliasAddressHex_decode |].
  split; [reflexivity |].
  split; [intros i Hi; now apply PutUint64_digit |].
  split; [reflexivity |].
  unfold NewAddressFromNamespace, NewAddressFromBase32.
  now rewrite aliasAddressHex_decode.
Qed.

(** C9. Two identifiers of different value give different payloads of 25
    bytes, whatever the version table.  When the table has an entry for the
    alias version byte, [NewAddressFromNamespace] produces an address for
    every identifier: its text decodes to the payload, 25 bytes that start
    with the alias version byte, and two identifiers of different value get
    different address texts.  Whatever the table, an address that is
    produced decodes to 25 bytes that start with the alias version byte, and
    the produced addresses of two identifiers of different value differ. *)
Theorem NewAddressFromNamespace_injective :
  (forall n1 n2, Id n1 <> Id n2 ->
     exists p1 p2,
       GoHex.DecodeString (aliasAddressHex n1) = Ok p1
       /\ GoHex.DecodeString (aliasAddressHex n2) = Ok p2
       /\ length p1 = 25%nat /\ length p2 = 25%nat
       /\ p1 <> p2)
  /\ (forall nType, addressNet !! AliasAddress = Some nType ->
        (forall n, exists a rest,
           NewAddressFromNamespace addressNet unicodeUpper n = Ok a
           /\ Address_Type a = nType
           /\ GoBase32.DecodeString (Address_Address a) = Ok (AliasAddress :: rest)
           /\ length rest = 24%nat
           /\ GoHex.DecodeString (aliasAddressHex n) = Ok (AliasAddress :: rest))
        /\ (forall n1 n2, Id n1 <> Id n2 ->
              exists a1 a2,
                NewAddressFromNamespace addressNet unicodeUpper n1 = Ok a1
                /\ NewAddressFromNamespace addressNet unicodeUpper n2 = Ok a2
                /\ Address_Address a1 <> Address_Address a2))
  /\ (forall n a, NewAddressFromNamespace addressNet unicodeUpper n = Ok a ->
        exists rest,
          GoBase32.DecodeString (Address_Address a) = Ok (AliasAddress :: rest)
          /\ length rest = 24%nat)
  /\ (forall n1 n2 a1 a2,
        Id n1 <> Id n2 ->
        NewAddressFromNamespace addressNet unicodeUpper n1 = Ok a1 ->
        NewAddressFromNamespace addressNet unicodeUpper n2 = Ok a2 ->
        Address_Address a1 <> Address_Address a2).
Proof.
  assert (Htext : forall n1 n2, Id n1 <> Id n2 ->
            GoBase32.EncodeToString (aliasPayload n1)
            <> GoBase32.EncodeToString (aliasPayload n2)).
  { intros n1 n2 Hne H. apply EncodeToString_inj in H; try apply aliasPayload_quanta.
    now apply Hne, aliasPayload_inj. }
  split; [| split; [| split]].
  - intros n1 n2 Hne. exists (aliasPayload n1), (aliasPayload n2).
    rewrite !aliasAddressHex_decode.
    split; [reflexivity |]. split; [reflexivity |].
    split; [reflexivity |]. split; [reflexivity |].
    intros H. now apply Hne, aliasPayload_inj.
  - intros nType Hnet.
    assert (Hprod : forall n,
              NewAddressFromNamespace addressNet unicodeUpper n
              = Ok (mkAddress nType (GoBase32.EncodeToString (aliasPayload n)))).
    { intros n. rewrite NewAddressFromNamespace_spec.
      unfold NetworkType in *. now rewrite Hnet. }
    split.
    + intros n. eexists. eexists. split; [apply Hprod |].
      cbn [Address_Type Address_Address].
      rewrite DecodeString_EncodeToString by apply aliasPayload_quanta.
      rewrite aliasAddressHex_decode.
      split; [reflexivity |]. split; [reflexivity |]. split; reflexivity.
    + intros n1 n2 Hne. eexists. eexists.
      split; [apply Hprod |]. split; [apply Hprod |].
      cbn [Address_Address]. now apply Htext.
  - intros n a. rewrite NewAddressFromNamespace_spec.
    destruct (addressNet !! AliasAddress); [| discriminate].
    intros [= <-]. cbn [Address_Address].
    rewrite DecodeString_EncodeToString by apply aliasPayload_quanta.
    eexists. split; reflexivity.
  - intros n1 n2 a1 a2 Hne. rewrite !NewAddressFromNamespace_spec.
    destruct (addressNet !! AliasAddress); [| discriminate].
    intros [= <-] [= <-]. cbn [Address_Address]. now apply Htext.
Qed.

End AddressProperties.

(** ** Parsing and pretty-printing *)

Lemma append_nil_l (s : string) : "" +:+ s = s.
Proof. reflexivity. Qed.

Lemma substring_0_0 (s : string) : substring 0 0 s = ""%string.
Proof. now destruct s. Qed.

Section ParsingProperties.

Variable addressNet : gmap Z NetworkType.
Variable unicodeUpper : string -> string.

(** [NewAddress] takes the dashes out of six groups and a tail of canonical
    bytes and leaves the rest as it is. *)
Lemma NewAddress_groups (t : NetworkType) (b0 b1 b2 b3 b4 b5 tl : string) :
  allBytes isCanonicalByte (b0 +:+ b1 +:+ b2 +:+ b3 +:+ b4 +:+ b5 +:+ tl) = true ->
  NewAddress unicodeUpper
    (b0 +:+ "-" +:+ b1 +:+ "-" +:+ b2 +:+ "-" +:+ b3 +:+ "-" +:+ b4 +:+ "-"
        +:+ b5 +:+ "-" +:+ tl) t
    = mkAddress t (b0 +:+ b1 +:+ b2 +:+ b3 +:+ b4 +:+ b5 +:+ tl).
Proof.
  intros Hall. pose proof Hall as Hparts. rewrite !allBytes_app in Hparts.
  repeat match goal with
    | H : _ && _ = true |- _ => apply andb_true_iff in H as [? ?]
    end.
  unfold NewAddress. rewrite !Replace_app.
  change (GoStrings.Replace "-" "-" "") with ""%string.
  rewrite !append_nil_l, !Replace_canonical by assumption.
  now rewrite ToUpper_canonical.
Qed.

(** C8. For an address whose text is canonical (40 characters, dash-free,
    upper-case), [Pretty] succeeds, and stripping the dashes and
    upper-casing its result, as [NewAddress] does, gives the address back. *)
Theorem Pretty_NewAddress_roundtrip (ad : Address) :
  isCanonicalText (Address_Address ad) = true ->
  exists p, Pretty ad = Ok p /\ NewAddress unicodeUpper p (Address_Type ad) = ad.
Proof.
  destruct ad as [t s]. cbn [Address_Address Address_Type].
  unfold isCanonicalText. intros H. apply andb_true_iff in H as [Hlen Hall].
  apply Nat.eqb_eq in Hlen.
  destruct (Pretty_groups t s Hlen) as [Hs Hp].
  rewrite Hp. eexists. split; [reflexivity |].
  rewrite Hs in Hall. rewrite NewAddress_groups by exact Hall.
  f_equal. symmetry. exact Hs.
Qed.

Lemma isBase32Text_canonical (s : string) :
  isBase32Text s = true -> isCanonicalText s = true.
Proof.
  unfold isBase32Text, isCanonicalText. intros H.
  apply andb_true_iff in H as [Hlen Hall]. rewrite Hlen. cbn [andb].
  revert Hall. apply allBytes_impl, isBase32Byte_canonical.
Qed.

(** A dash after six characters of the alphabet stops the decoder. *)
Lemma decode_dash (c0 c1 c2 c3 c4 c5 : Z) (rest : list Z) :
  isBase32Byte c0 = true -> isBase32Byte c1 = true -> isBase32Byte c2 = true ->
  isBase32Byte c3 = true -> isBase32Byte c4 = true -> isBase32Byte c5 = true ->
  GoBase32.decode
    (GoBase32.stripNewlines (c0 :: c1 :: c2 :: c3 :: c4 :: c5 :: 45 :: rest)) 0%nat []
    = Err CorruptInputError.
Proof.
  intros H0 H1 H2 H3 H4 H5. unfold GoBase32.stripNewlines.
  pose proof (isBase32Byte_range _ H0). pose proof (isBase32Byte_range _ H1).
  pose proof (isBase32Byte_range _ H2). pose proof (isBase32Byte_range _ H3).
  pose proof (isBase32Byte_range _ H4). pose proof (isBase32Byte_range _ H5).
  rewrite !filter_cons_True by lia.
  repeat (rewrite decode_base32_char by assumption; cbn [Nat.eqb]).
  reflexivity.
Qed.

(** The raw text of an address parses when its version byte is known. *)
Lemma NewAddressFromRaw_base32_text (s : string) :
  isBase32Text s = true ->
  exists v rest, GoBase32.DecodeString s = Ok (v :: rest)
    /\ length (v :: rest) = 25%nat
    /\ forall nType, addressNet !! v = Some nType ->
         NewAddressFromRaw addressNet unicodeUpper s = Ok (mkAddress nType s).
Proof.
  intros Hs. destruct (DecodeString_base32_text s Hs) as (v & rest & Hd & Hl).
  exists v, rest. split; [exact Hd |]. split; [exact Hl |].
  intros nType Hn. unfold NewAddressFromRaw. rewrite Hd. cbn [bind]. rewrite Hn.
  apply isBase32Text_canonical in Hs. unfold isCanonicalText in Hs.
  apply andb_true_iff in Hs as [_ Hs]. now rewrite NewAddress_canonical.
Qed.

Lemma NewAddressFromRaw_Pretty (t : NetworkType) (s p : string) :
  isBase32Text s = true -> Pretty (mkAddress t s) = Ok p ->
  NewAddressFromRaw addressNet unicodeUpper p = Err CorruptInputError.
Proof.
  intros Hs Hp. unfold isBase32Text in Hs. apply andb_true_iff in Hs as [Hlen Hall].
  apply Nat.eqb_eq in Hlen.
  destruct (Pretty_groups t s Hlen) as [_ Hp']. rewrite Hp' in Hp.
  injection Hp as <-. clear Hp'.
  do 6 (destruct s as [|? s]; [discriminate Hlen |]).
  unfold allBytes in Hall. cbn [bytes_of_string forallb] in Hall.
  repeat match goal with
    | H : _ && _ = true |- _ => apply andb_true_iff in H as [? ?]
    end.
  cbn [substring]. rewrite substring_0_0, !append_cons, append_nil_l.
  unfold NewAddressFromRaw, GoBase32.DecodeString. cbn [bytes_of_string].
  change (byte_of_ascii "-") with 45.
  now rewrite decode_dash by assumption.
Qed.

(** C5, as the code has it.  [NewAddress] normalises, so the pretty text and
    the raw text of an address give the same [Address]; but
    [NewAddressFromRaw] decodes the text as it is given, before [NewAddress]
    normalises it: the pretty text of a raw address text is rejected with the
    decoder's error, and the raw text is accepted when its version byte is
    known. *)
Theorem NewAddressFromRaw_rejects_pretty (t : NetworkType) (s : string) :
  isBase32Text s = true ->
  exists p, Pretty (mkAddress t s) = Ok p
    /\ NewAddress unicodeUpper p t = NewAddress unicodeUpper s t
    /\ NewAddressFromRaw addressNet unicodeUpper p = Err CorruptInputError
    /\ exists v rest, GoBase32.DecodeString s = Ok (v :: rest)
         /\ forall nType, addressNet !! v = Some nType ->
              NewAddressFromRaw addressNet unicodeUpper s = Ok (mkAddress nType s).
Proof.
  intros Hs. pose proof (isBase32Text_canonical s Hs) as Hc.
  unfold isCanonicalText in Hc. apply andb_true_iff in Hc as [Hlen Hall].
  apply Nat.eqb_eq in Hlen.
  destruct (Pretty_groups t s Hlen) as [Hgroups Hp].
  eexists. split; [exact Hp |]. split.
  { rewrite (NewAddress_canonical unicodeUpper s t Hall).
    rewrite Hgroups in Hall. rewrite NewAddress_groups by exact Hall.
    f_equal. symmetry. exact Hgroups. }
  split; [now apply (NewAddressFromRaw_Pretty t s) |].
  destruct (NewAddressFromRaw_base32_text s Hs) as (v & rest & Hd & _ & Hok).
  now exists v, rest.
Qed.

(** C4, as the code has it.  [NewAddressFromRaw] fails with the decoder's
    error when the text does not decode, and with [ErrInvalidAddress] when the
    first decoded byte is not in the version table; it accepts every text
    that decodes to at least one byte whose first byte is in the table,
    whatever the number of decoded bytes; in particular it accepts every raw
    address text (40 characters of the alphabet, 25 bytes) with a known
    version byte. *)
Theorem NewAddressFromRaw_outcomes (text : string) :
  (forall e, GoBase32.DecodeString text = Err e ->
     NewAddressFromRaw addressNet unicodeUpper text = Err e)
  /\ (forall v rest, GoBase32.DecodeString text = Ok (v :: rest) ->
       addressNet !! v = None ->
       NewAddressFromRaw addressNet unicodeUpper text = Err ErrInvalidAddress)
  /\ (forall v rest nType, GoBase32.DecodeString text = Ok (v :: rest) ->
       addressNet !! v = Some nType ->
       NewAddressFromRaw addressNet unicodeUpper text
         = Ok (NewAddress unicodeUpper text nType))
  /\ (isBase32Text text = true ->
       exists v rest, GoBase32.DecodeString text = Ok (v :: rest)
         /\ length (v :: rest) = 25%nat
         /\ forall nType, addressNet !! v = Some nType ->
              NewAddressFromRaw addressNet unicodeUpper text
                = Ok (mkAddress nType text)).
Proof.
  unfold NewAddressFromRaw. repeat split.
  - intros e ->. reflexivity.
  - intros v rest -> Hn. cbn [bind]. now rewrite Hn.
  - intros v rest nType -> Hn. cbn [bind]. now rewrite Hn.
  - apply NewAddressFromRaw_base32_text.
Qed.

(** C10. [NewAddressFromRaw] indexes the decoded bytes without looking at
    their number: it panics exactly on the texts that decode to no byte at
    all, the empty text among them; on every other text it returns. *)
Theorem NewAddressFromRaw_panics_iff (text : string) :
  (NewAddressFromRaw addressNet unicodeUpper text = Panic
     <-> GoBase32.DecodeString text = Ok [])
  /\ GoBase32.DecodeString "" = Ok []
  /\ NewAddressFromRaw addressNet unicodeUpper "" = Panic.
Proof.
  split; [| split; reflexivity].
  unfold NewAddressFromRaw.
  destruct (GoBase32.DecodeString text) as [[|v rest]| |] eqn:Hd; cbn [bind].
  - split; reflexivity.
  - destruct (addressNet !! v); split; discriminate.
  - split; discriminate.
  - exfalso. revert Hd. apply decode_no_panic.
Qed.

End ParsingProperties.

(** ** The checksum *)

Lemma round_length (st : list Z) (rc : Z) : length (Sha3.round st rc) = 25%nat.
Proof.
  unfold Sha3.round.
  assert (H : length (Sha3.chi (Sha3.rhopi (Sha3.theta st))) = 25%nat)
    by (unfold Sha3.chi; now rewrite length_map).
  destruct (Sha3.chi (Sha3.rhopi (Sha3.theta st))); [discriminate H | exact H].
Qed.

Lemma keccak_f_length (st : list Z) : length (Sha3.keccak_f st) = 25%nat.
Proof. unfold Sha3.keccak_f, Sha3.RC. cbn [fold_left]. apply round_length. Qed.

Lemma absorb_all_length (fuel : nat) : forall st bs,
  length st = 25%nat -> length (Sha3.absorb_all fuel st bs) = 25%nat.
Proof.
  induction fuel as [|fuel IH]; intros st bs Hst; cbn [Sha3.absorb_all]; [exact Hst |].
  destruct bs; [exact Hst |]. apply IH. unfold Sha3.absorb. apply keccak_f_length.
Qed.

Lemma flat_map_bytes_length (st : list Z) :
  length (flat_map Sha3.bytes_of_lane st) = (8 * length st)%nat.
Proof. induction st as [|l st IH]; cbn [flat_map]; [reflexivity |]. rewrite length_app, IH. cbn. lia. Qed.

(** The model of the hash yields 32 bytes on every input. *)
Lemma sha3_256_length (msg : list Z) : length (Sha3.sha3_256 msg) = 32%nat.
Proof.
  unfold Sha3.sha3_256. rewrite length_take, flat_map_bytes_length.
  rewrite absorb_all_length by reflexivity. reflexivity.
Qed.

Section ChecksumProperties.

Variable HashesSha3_256 : list Z -> outcome ByteSlice.
Variable sha3_256 : list Z -> list Z.

(** C6. With a hash primitive that succeeds on every input and returns the
    32-byte SHA3-256 digest, in a slice of whatever capacity,
    [GenerateChecksum] succeeds on every byte slice, the empty one included
    and treated like any other, and returns the first 4 bytes of the
    digest. *)
Theorem GenerateChecksum_first_four (b : list Z) :
  (forall m, exists spare,
     HashesSha3_256 m = Ok (mkByteSlice (sha3_256 m) spare)) ->
  (forall m, length (sha3_256 m) = 32%nat) ->
  GenerateChecksum HashesSha3_256 b = Ok (take 4 (sha3_256 b))
  /\ length (take 4 (sha3_256 b)) = 4%nat
  /\ GenerateChecksum HashesSha3_256 [] = Ok (take 4 (sha3_256 [])).
Proof.
  intros Hhash Hlen.
  assert (H : forall m, GenerateChecksum HashesSha3_256 m = Ok (take 4 (sha3_256 m))).
  { intros m. unfold GenerateChecksum. destruct (Hhash m) as [spare ->].
    cbn [bind slice_bytes slice_spare]. unfold NUM_CHECKSUM_BYTES.
    rewrite length_app, Hlen. cbn [Nat.add Nat.leb].
    rewrite take_app_le by (rewrite Hlen; lia). reflexivity. }
  split; [apply H |]. split; [| apply H].
  rewrite length_take, Hlen. reflexivity.
Qed.

End ChecksumProperties.

(** ** Names, parents and children *)

Lemma Split_app (s t : string) (sep : ascii) :
  GoStrings.Split (s +:+ String sep t) sep
    = GoStrings.Split s sep ++ GoStrings.Split t sep.
Proof.
  induction s as [|c s IH].
  - rewrite append_nil_l. cbn [GoStrings.Split]. now rewrite Ascii.eqb_refl.
  - rewrite append_cons. cbn [GoStrings.Split]. rewrite IH.
    destruct (Ascii.eqb c sep); [reflexivity |].
    pose proof (Split_nonempty s sep) as Hne.
    destruct (GoStrings.Split s sep); [contradiction | reflexivity].
Qed.

Lemma Split_no_sep (t : string) (sep : ascii) :
  countByte sep t = 0%nat -> GoStrings.Split t sep = [t].
Proof.
  induction t as [|c t IH]; cbn; [reflexivity |].
  destruct (Ascii.eqb c sep); [discriminate |].
  intros H. now rewrite IH.
Qed.

Lemma countByte_app (sep : ascii) (s t : string) :
  countByte sep (s +:+ t) = (countByte sep s + countByte sep t)%nat.
Proof.
  induction s as [|c s IH]; [reflexivity |].
  rewrite append_cons. cbn [countByte]. rewrite IH. lia.
Qed.

Lemma last_cons_default {A : Type} (x y : A) (l : list A) :
  default x (last (y :: l)) = default y (last l).
Proof.
  destruct l as [|z l]; [reflexivity |].
  change (last (y :: z :: l)) with (last (z :: l)).
  destruct (last (z :: l)) eqn:E; [reflexivity |].
  apply last_None in E. discriminate.
Qed.

Section NamespaceNameProperties.

Variable regValidNamespace : string -> bool.
Variable generateNamespaceId : string -> NamespaceId -> outcome NamespaceId.

Lemma GenerateNamespacePath_length (name : string) (path : list NamespaceId) :
  GenerateNamespacePath regValidNamespace generateNamespaceId name = Ok path ->
  length path = S (countByte "." name) /\ (countByte "." name < 3)%nat.
Proof.
  unfold GenerateNamespacePath. rewrite Split_length. cbn [Nat.eqb].
  destruct (Nat.ltb_spec 3 (S (countByte "." name))) as [|Hle]; [discriminate |].
  intros Hloop. apply pathLoop_Ok in Hloop as (ids & -> & Hch & _).
  apply chain_length in Hch. rewrite Split_length in Hch. cbn [app]. lia.
Qed.

(** One more segment at the end of the loop. *)
Lemma pathLoop_snoc (parts : list string) (part : string) :
  forall namespaceId acc,
  pathLoop regValidNamespace generateNamespaceId (parts ++ [part]) namespaceId acc =
    let* path :=
      pathLoop regValidNamespace generateNamespaceId parts namespaceId acc in
    if negb (regValidNamespace part) then Err ErrInvalidNamespaceName
    else
      let* id := generateNamespaceId part
                   (default namespaceId (last (drop (length acc) path))) in
      Ok (path ++ [id]).
Proof.
  induction parts as [|part0 parts IH]; intros ns acc.
  - cbn [app pathLoop bind]. rewrite drop_all. cbn [last default].
    destruct (negb (regValidNamespace part)); [reflexivity |].
    now destruct (generateNamespaceId part ns).
  - cbn [app pathLoop].
    destruct (negb (regValidNamespace part0)); [reflexivity |].
    destruct (generateNamespaceId part0 ns) as [id0| |]; cbn [bind]; try reflexivity.
    rewrite IH.
    destruct (pathLoop regValidNamespace generateNamespaceId parts id0 (acc ++ [id0]))
      as [path| |] eqn:Hloop; cbn [bind]; try reflexivity.
    apply pathLoop_Ok in Hloop as (ids & -> & _ & _).
    rewrite length_app. cbn [length].
    rewrite <- !app_assoc. cbn [app].
    rewrite drop_app_length.
    replace (length acc + 1)%nat with (length (acc ++ [id0]))
      by (rewrite length_app; reflexivity).
    change (acc ++ id0 :: ids) with (acc ++ [id0] ++ ids).
    rewrite (app_assoc acc [id0] ids), drop_app_length.
    now rewrite last_cons_default.
Qed.

(** X1. [NewNamespaceIdFromName] returns the last identifier of the path of
    the name, and fails exactly as [GenerateNamespacePath] does: the branch
    for an empty path is never taken. *)
Theorem NewNamespaceIdFromName_last (name : string) :
  (forall id,
     NewNamespaceIdFromName regValidNamespace generateNamespaceId name = Ok id
     <-> exists front,
           GenerateNamespacePath regValidNamespace generateNamespaceId name
             = Ok (front ++ [id]))
  /\ (forall e,
        NewNamespaceIdFromName regValidNamespace generateNamespaceId name = Err e
        <-> GenerateNamespacePath regValidNamespace generateNamespaceId name = Err e)
  /\ (NewNamespaceIdFromName regValidNamespace generateNamespaceId name = Panic
      <-> GenerateNamespacePath regValidNamespace generateNamespaceId name = Panic).
Proof.
  unfold NewNamespaceIdFromName.
  destruct (GenerateNamespacePath regValidNamespace generateNamespaceId name)
    as [path| |] eqn:Hpath; cbn [bind].
  - apply GenerateNamespacePath_length in Hpath as [Hlen _].
    destruct (last path) as [id0|] eqn:Hlast.
    + apply last_Some in Hlast as [front ->].
      split; [| split; [intros e |]; split; discriminate].
      intros id. split.
      * intros [= <-]. now exists front.
      * intros [front' [= H]]. now apply app_inj_tail in H as [_ ->].
    + apply last_None in Hlast. subst path. discriminate Hlen.
  - split; [| split; [intros e' |]; split; congruence].
    intros id. split; [discriminate | intros [? ?]; discriminate].
  - split; [| split; [intros e' |]; split; congruence].
    intros id. split; [discriminate | intros [? ?]; discriminate].
Qed.

Lemma pathLoop_total (parts : list string) :
  (forall part parent, exists id, generateNamespaceId part parent = Ok id) ->
  forall namespaceId acc,
  Forall (fun part => regValidNamespace part = true) parts ->
  exists ids,
    pathLoop regValidNamespace generateNamespaceId parts namespaceId acc
      = Ok (acc ++ ids)
    /\ length ids = length parts.
Proof.
  intros Htotal. induction parts as [|part parts IH]; intros ns acc Hall.
  - exists []. now rewrite app_nil_r.
  - inversion Hall as [|? ? Hv Hrest]; subst. cbn [pathLoop]. rewrite Hv.
    destruct (Htotal part ns) as [id ->]. cbn [negb bind].
    destruct (IH id (acc ++ [id]) Hrest) as (ids & -> & Hlen).
    exists (id :: ids). rewrite <- app_assoc. split; [reflexivity | cbn; lia].
Qed.

Lemma pathLoop_invalid (parts : list string) :
  (forall part parent, exists id, generateNamespaceId part parent = Ok id) ->
  forall namespaceId acc,
  forallb regValidNamespace parts = false ->
  pathLoop regValidNamespace generateNamespaceId parts namespaceId acc
    = Err ErrInvalidNamespaceName.
Proof.
  intros Htotal. induction parts as [|part parts IH]; intros ns acc;
    cbn [forallb pathLoop]; [discriminate |].
  destruct (regValidNamespace part); cbn [andb negb]; [| reflexivity].
  destruct (Htotal part ns) as [id ->]. cbn [bind]. apply IH.
Qed.

(** X2. When the derivation step cannot fail, the dots and the grammar
    decide: more than 3 segments give the too-many-parts error, whatever
    the segments are; otherwise a segment outside the grammar, wherever it
    stands, gives the invalid-name error; otherwise the name is accepted
    with one identifier per segment. *)
Theorem GenerateNamespacePath_decided (name : string) :
  (forall part parent, exists id, generateNamespaceId part parent = Ok id) ->
  let parts := GoStrings.Split name "." in
  if (3 <? length parts)%nat
  then GenerateNamespacePath regValidNamespace generateNamespaceId name
       = Err ErrNamespaceTooManyPart
  else if forallb regValidNamespace parts
  then exists path,
         GenerateNamespacePath regValidNamespace generateNamespaceId name = Ok path
         /\ length path = length parts
  else GenerateNamespacePath regValidNamespace generateNamespaceId name
       = Err ErrInvalidNamespaceName.
Proof.
  intros Htotal parts. unfold GenerateNamespacePath. fold parts.
  pose proof (Split_nonempty name ".") as Hne. fold parts in Hne.
  destruct (Nat.eqb_spec (length parts) 0) as [H0|_].
  { destruct parts; [contradiction | discriminate]. }
  destruct (3 <? length parts)%nat; [reflexivity |].
  destruct (forallb regValidNamespace parts) eqn:Hall.
  - destruct (pathLoop_total parts Htotal (NewNamespaceIdNoCheck 0) [])
      as (ids & Hloop & Hlen).
    { apply List.Forall_forall. now apply forallb_forall. }
    exists ids. now split.
  - now apply pathLoop_invalid.
Qed.

(** X3. The path of a child name is the path of its parent with one more
    identifier, derived from the last segment and the identifier of the
    parent; so the identifier of [parent.child] is [generateNamespaceId] of
    [child] and the identifier of [parent]. *)
Theorem NewNamespaceIdFromName_child (parent child : string) (pid : NamespaceId) :
  countByte "." child = 0%nat ->
  regValidNamespace child = true ->
  (countByte "." parent < 2)%nat ->
  NewNamespaceIdFromName regValidNamespace generateNamespaceId parent = Ok pid ->
  NewNamespaceIdFromName regValidNamespace generateNamespaceId
      (parent +:+ "." +:+ child)
    = generateNamespaceId child pid
  /\ exists ppath,
       GenerateNamespacePath regValidNamespace generateNamespaceId parent = Ok ppath
       /\ GenerateNamespacePath regValidNamespace generateNamespaceId
            (parent +:+ "." +:+ child)
          = let* id := generateNamespaceId child pid in Ok (ppath ++ [id]).
Proof.
  intros Hchild Hvalid Hdots Hpid.
  unfold NewNamespaceIdFromName in Hpid.
  destruct (GenerateNamespacePath regValidNamespace generateNamespaceId parent)
    as [ppath| |] eqn:Hpp; cbn [bind] in Hpid; try discriminate.
  destruct (last ppath) as [pid'|] eqn:Hlast; [| discriminate].
  injection Hpid as ->.
  assert (Hpath : GenerateNamespacePath regValidNamespace generateNamespaceId
                    (parent +:+ "." +:+ child)
                  = let* id := generateNamespaceId child pid in Ok (ppath ++ [id])).
  { unfold GenerateNamespacePath in Hpp |- *.
    change ("." +:+ child)%string with (String "." child).
    rewrite Split_app, (Split_no_sep child) by exact Hchild.
    rewrite length_app, Split_length in *. cbn [length Nat.eqb] in *.
    destruct (Nat.ltb_spec 3 (S (countByte "." parent))); [discriminate |].
    replace (S (countByte "." parent) + 1 =? 0)%nat with false
      by (symmetry; apply Nat.eqb_neq; lia).
    destruct (Nat.ltb_spec 3 (S (countByte "." parent) + 1)); [lia |].
    rewrite pathLoop_snoc, Hpp. cbn [bind length]. rewrite drop_0, Hlast, Hvalid.
    reflexivity. }
  split; [| now exists ppath].
  unfold NewNamespaceIdFromName. rewrite Hpath.
  destruct (generateNamespaceId child pid) as [id| |]; cbn [bind]; try reflexivity.
  now rewrite last_snoc.
Qed.

End NamespaceNameProperties.

(** X4. On identifiers built by the constructor, [Equals] is equality of
    [Id()], and of the 64-bit values they were built from. *)
Theorem Equals_iff_Id (a b : Z) :
  0 <= a < 2 ^ 64 -> 0 <= b < 2 ^ 64 ->
  (Equals (NewNamespaceIdNoCheck a) (NewNamespaceIdNoCheck b) = true <-> a = b)
  /\ (Equals (NewNamespaceIdNoCheck a) (NewNamespaceIdNoCheck b) = true
      <-> Id (NewNamespaceIdNoCheck a) = Id (NewNamespaceIdNoCheck b)).
Proof.
  intros Ha Hb.
  rewrite !Id_NewNamespaceIdNoCheck by assumption.
  assert (H : Equals (NewNamespaceIdNoCheck a) (NewNamespaceIdNoCheck b) = true
              <-> a = b); [| now split].
  unfold Equals, NewNamespaceIdNoCheck, baseInt64. cbn [namespaceBase].
  rewrite !Z.mod_small by lia. rewrite Z.eqb_eq.
  destruct (Z.ltb_spec a (2 ^ 63)), (Z.ltb_spec b (2 ^ 63)); lia.
Qed.

(** ** Base32 with padding: decoding what was encoded, for every length *)

Ltac fits_solve0 :=
  unfold uint8;
  repeat match goal with
    | H : fits ?k ?x |- fits ?k ?x => exact H
    | |- fits _ (Z.lor _ _) => apply fits_lor; [lia | |]
    | |- fits _ (Z.shiftr _ _) => apply fits_shiftr; [lia |]
    | |- fits _ (Z.land _ _) => apply fits_land; [lia | unfold fits; lia]
    | |- fits _ 0 => unfold fits; lia
    end.

Ltac byte_eq0 :=
  apply byte_ext; [fits_solve0 | fits_solve0 | testbits ..].

(** The bytes of a last quantum of 1 to 4 bytes come back from the blocks
    that carry data. *)
Lemma pack_blocks_final (src : list Z) :
  (1 <= length src <= 4)%nat -> Forall (fits 8) src ->
  GoBase32.pack
    (take (GoBase32.dataChars (length src))
       (map (fun b => Z.land b 31) (GoBase32.blocks src)))
    (GoBase32.dataChars (length src)) = src.
Proof.
  intros Hlen Hall.
  destruct src as [|s0 [|s1 [|s2 [|s3 [|s4 rest]]]]]; cbn [length] in Hlen; try lia;
    repeat match goal with
      | H : Forall _ (_ :: _) |- _ => inversion H; clear H; subst
      end;
    unfold GoBase32.pack, GoBase32.blocks;
    cbn [length GoBase32.dataChars map nth take];
    repeat f_equal; byte_eq0.
Qed.

(** A padded last quantum decodes to its 1 to 4 bytes. *)
Lemma decode_final (src : list Z) :
  (1 <= length src <= 4)%nat -> Forall (fits 8) src ->
  GoBase32.decode
    (take (GoBase32.dataChars (length src)) (GoBase32.quantumChars src)
       ++ replicate (8 - GoBase32.dataChars (length src)) GoBase32.padChar)
    0%nat [] = Ok src.
Proof.
  intros Hlen Hall.
  pose proof (pack_blocks_final src Hlen Hall) as Hp.
  pose proof (blocks_fits src) as Hb.
  unfold GoBase32.quantumChars.
  rewrite <- (map_map (fun b => Z.land b 31) GoBase32.encodeChar).
  destruct (map (fun b => Z.land b 31) (GoBase32.blocks src))
    as [|v0 [|v1 [|v2 [|v3 [|v4 [|v5 [|v6 [|v7 [|]]]]]]]]] eqn:E;
    try discriminate E.
  repeat match goal with H : Forall _ (_ :: _) |- _ => inversion H; clear H; subst end.
  destruct src as [|s0 [|s1 [|s2 [|s3 [|s4 rest]]]]]; cbn [length] in Hlen; try lia;
    cbn [length GoBase32.dataChars map take app Nat.sub replicate] in Hp |- *;
    repeat (rewrite decode_data_char by assumption; cbn [Nat.eqb app]);
    lazymatch goal with
    | |- GoBase32.decode (?c :: ?rest) ?j ?d = _ =>
        change (GoBase32.decode (c :: rest) j d) with (Ok (GoBase32.pack d j))
    end;
    now rewrite Hp.
Qed.

Lemma Encode_chars (src : list Z) :
  Forall (fun c => isBase32Byte c = true \/ c = GoBase32.padChar) (GoBase32.Encode src).
Proof.
  assert (Hq : forall l, Forall (fun c => isBase32Byte c = true \/ c = GoBase32.padChar)
                           (GoBase32.quantumChars l)).
  { intros l. eapply Forall_impl; [apply quantumChars_base32 |]. cbn. auto. }
  assert (Hfinal : forall l n,
    Forall (fun c => isBase32Byte c = true \/ c = GoBase32.padChar)
      (take n (GoBase32.quantumChars l) ++ replicate (8 - n) GoBase32.padChar)).
  { intros l n. apply Forall_app. split; [apply Forall_take, Hq |].
    apply Forall_replicate. now right. }
  remember (length src) as n eqn:Hn. revert src Hn.
  induction n as [n IH] using lt_wf_ind. intros src Hn.
  destruct src as [|s0 [|s1 [|s2 [|s3 [|s4 rest]]]]];
    [ constructor
    | apply (Hfinal [s0] 2%nat)
    | apply (Hfinal [s0; s1] 4%nat)
    | apply (Hfinal [s0; s1; s2] 5%nat)
    | apply (Hfinal [s0; s1; s2; s3] 7%nat)
    | ].
  cbn [GoBase32.Encode]. apply Forall_app. split; [apply Hq |].
  apply (IH (length rest)); [subst n; cbn; lia | reflexivity].
Qed.

Lemma decode_Encode (src : list Z) :
  Forall (fits 8) src -> GoBase32.decode (GoBase32.Encode src) 0%nat [] = Ok src.
Proof.
  remember (length src) as n eqn:Hn. revert src Hn.
  induction n as [n IH] using lt_wf_ind. intros src Hn Hall.
  destruct src as [|s0 [|s1 [|s2 [|s3 [|s4 rest]]]]];
    [ reflexivity
    | apply (decode_final [s0]); [cbn; lia | exact Hall]
    | apply (decode_final [s0; s1]); [cbn; lia | exact Hall]
    | apply (decode_final [s0; s1; s2]); [cbn; lia | exact Hall]
    | apply (decode_final [s0; s1; s2; s3]); [cbn; lia | exact Hall]
    | ].
  repeat match goal with H : Forall _ (_ :: _) |- _ => inversion H; clear H; subst end.
  cbn [GoBase32.Encode]. rewrite decode_quantum by assumption.
  rewrite (IH (length rest)); [reflexivity | cbn; lia | reflexivity | assumption].
Qed.

Lemma stripNewlines_Encode (src : list Z) :
  GoBase32.stripNewlines (GoBase32.Encode src) = GoBase32.Encode src.
Proof.
  unfold GoBase32.stripNewlines.
  pose proof (Encode_chars src) as H.
  induction H as [|c l Hc _ IH]; [reflexivity |].
  rewrite filter_cons_True; [now rewrite IH |].
  destruct Hc as [Hc| ->]; [apply isBase32Byte_range in Hc; lia |].
  unfold GoBase32.padChar. lia.
Qed.

Lemma Encode_fits (src : list Z) : Forall (fits 8) (GoBase32.Encode src).
Proof.
  eapply Forall_impl; [apply Encode_chars |]. cbn.
  intros c [Hc| ->]; [now apply isBase32Byte_fits |].
  unfold fits, GoBase32.padChar. lia.
Qed.

(** Decoding the base32 text of any bytes gives the bytes back. *)
Lemma DecodeString_EncodeToString_bytes (src : list Z) :
  Forall (fits 8) src ->
  GoBase32.DecodeString (GoBase32.EncodeToString src) = Ok src.
Proof.
  intros Hall. unfold GoBase32.DecodeString, GoBase32.EncodeToString.
  rewrite bytes_of_string_of_bytes by apply Encode_fits.
  rewrite stripNewlines_Encode. now apply decode_Encode.
Qed.

Lemma EncodeToString_canonical_bytes (src : list Z) :
  allBytes isCanonicalByte (GoBase32.EncodeToString src) = true.
Proof.
  unfold GoBase32.EncodeToString.
  rewrite allBytes_string_of_bytes by apply Encode_fits.
  apply forallb_forall. intros c Hc.
  pose proof (Encode_chars src) as H. rewrite List.Forall_forall in H.
  destruct (H c Hc) as [Hb| ->]; [now apply isBase32Byte_canonical | reflexivity].
Qed.

(** ** Hexadecimal text, decoded *)

Lemma fromHexChar_range (c a : Z) : GoHex.fromHexChar c = Some a -> 0 <= a < 16.
Proof.
  unfold GoHex.fromHexChar.
  repeat match goal with
    | |- context [if ?b then _ else _] => destruct b eqn:?
    end; intros [= <-]; lia.
Qed.

Lemma Decode_fits (src : list Z) : forall l,
  GoHex.Decode src = Ok l -> Forall (fits 8) l.
Proof.
  remember (length src) as n eqn:Hn. revert src Hn.
  induction n as [n IH] using lt_wf_ind. intros src Hn l.
  destruct src as [|p [|q rest]]; cbn [GoHex.Decode].
  - intros [= <-]. constructor.
  - destruct (GoHex.fromHexChar p); discriminate.
  - destruct (GoHex.fromHexChar p) as [a|] eqn:Ha; [| discriminate].
    destruct (GoHex.fromHexChar q) as [b|] eqn:Hb; [| discriminate].
    destruct (GoHex.Decode rest) as [tl| |] eqn:Hrest; cbn [bind]; try discriminate.
    intros [= <-]. constructor.
    + apply fromHexChar_range in Hb. apply fits_lor; [lia | apply fits_uint8 |].
      unfold fits. lia.
    + apply (IH (length rest)) with rest; [subst n; cbn; lia | reflexivity | exact Hrest].
Qed.

Lemma hex_Decode_no_panic (src : list Z) : GoHex.Decode src <> Panic.
Proof.
  remember (length src) as n eqn:Hn. revert src Hn.
  induction n as [n IH] using lt_wf_ind. intros src Hn.
  destruct src as [|p [|q rest]]; cbn [GoHex.Decode]; [discriminate | |].
  - destruct (GoHex.fromHexChar p); discriminate.
  - destruct (GoHex.fromHexChar p); [| discriminate].
    destruct (GoHex.fromHexChar q); [| discriminate].
    specialize (IH (length rest) ltac:(subst n; cbn; lia) rest eq_refl).
    destruct (GoHex.Decode rest); cbn [bind]; congruence.
Qed.

Lemma Decode_nil (src : list Z) : GoHex.Decode src = Ok [] -> src = [].
Proof.
  destruct src as [|p [|q rest]]; cbn [GoHex.Decode]; [reflexivity | |].
  - destruct (GoHex.fromHexChar p); discriminate.
  - destruct (GoHex.fromHexChar p); [| discriminate].
    destruct (GoHex.fromHexChar q); [| discriminate].
    destruct (GoHex.Decode rest); cbn [bind]; discriminate.
Qed.

Section EncodedAddressProperties.

Variable addressNet : gmap Z NetworkType.
Variable unicodeUpper : string -> string.

(** Parsing the base32 text of any bytes: the leading byte decides. *)
Lemma NewAddressFromRaw_EncodeToString_bytes (pH : list Z) :
  Forall (fits 8) pH ->
  NewAddressFromRaw addressNet unicodeUpper (GoBase32.EncodeToString pH) =
    match pH with
    | [] => Panic
    | v :: _ =>
        match addressNet !! v with
        | Some nType => Ok (mkAddress nType (GoBase32.EncodeToString pH))
        | None => Err ErrInvalidAddress
        end
    end.
Proof.
  intros Hall. unfold NewAddressFromRaw.
  rewrite DecodeString_EncodeToString_bytes by exact Hall. cbn [bind].
  destruct pH as [|v rest]; [reflexivity |].
  destruct (addressNet !! v); [| reflexivity].
  now rewrite NewAddress_canonical by apply EncodeToString_canonical_bytes.
Qed.

(** X5. [NewAddressFromEncoded] passes on the error of the hexadecimal
    decoder; on a text that decodes to the bytes [v :: rest], of whatever
    number, the leading byte alone decides: a byte of the version table
    gives the address whose text is the padded base32 form of the bytes,
    any other byte the invalid-address error.  It panics on the empty text
    and on no other. *)
Theorem NewAddressFromEncoded_outcomes (encoded : string) :
  (forall e, GoHex.DecodeString encoded = Err e ->
     NewAddressFromEncoded addressNet unicodeUpper encoded = Err e)
  /\ (forall v rest, GoHex.DecodeString encoded = Ok (v :: rest) ->
        NewAddressFromEncoded addressNet unicodeUpper encoded =
          match addressNet !! v with
          | Some nType =>
              Ok (mkAddress nType (GoBase32.EncodeToString (v :: rest)))
          | None => Err ErrInvalidAddress
          end)
  /\ (NewAddressFromEncoded addressNet unicodeUpper encoded = Panic
      <-> encoded = ""%string).
Proof.
  unfold NewAddressFromEncoded.
  split; [intros e ->; reflexivity |].
  split.
  - intros v rest H. rewrite H. cbn [bind].
    apply (NewAddressFromRaw_EncodeToString_bytes (v :: rest)).
    exact (Decode_fits _ _ H).
  - split; [| intros ->; reflexivity].
    unfold GoHex.DecodeString.
    destruct (GoHex.Decode (bytes_of_string encoded)) as [pH| |] eqn:H; cbn [bind].
    + rewrite NewAddressFromRaw_EncodeToString_bytes by exact (Decode_fits _ _ H).
      destruct pH as [|v rest].
      * intros _. apply Decode_nil in H. now destruct encoded.
      * destruct (addressNet !! v); discriminate.
    + discriminate.
    + now apply hex_Decode_no_panic in H.
Qed.

(** X6. The hexadecimal and the base32 form of the same bytes give the same
    address: [NewAddressFromEncoded] of the lower-case hexadecimal text of
    bytes is [NewAddressFromRaw] of their base32 text, and the address it
    returns parses again, from its own text, to itself. *)
Theorem NewAddressFromEncoded_hex (pH : list Z) (ad : Address) :
  Forall (fits 8) pH ->
  NewAddressFromEncoded addressNet unicodeUpper (GoHex.EncodeToString pH) = Ok ad ->
  NewAddressFromRaw addressNet unicodeUpper (GoBase32.EncodeToString pH) = Ok ad
  /\ Address_Address ad = GoBase32.EncodeToString pH
  /\ NewAddressFromRaw addressNet unicodeUpper (Address_Address ad) = Ok ad.
Proof.
  intros Hall. unfold NewAddressFromEncoded, GoHex.DecodeString.
  rewrite <- (app_nil_r (bytes_of_string _)), Decode_EncodeToString by exact Hall.
  cbn [GoHex.Decode bind]. rewrite app_nil_r. intros H.
  assert (Htext : Address_Address ad = GoBase32.EncodeToString pH).
  { rewrite NewAddressFromRaw_EncodeToString_bytes in H by exact Hall.
    destruct pH as [|v rest]; [discriminate |].
    destruct (addressNet !! v); [| discriminate]. now injection H as <-. }
  split; [exact H |]. split; [exact Htext |]. now rewrite Htext.
Qed.

(** *** [EncodedStringToAddresses] *)

Lemma addressesLoop_Ok (addresses : list string) : forall pre ads,
  Forall2 (fun a ad => NewAddressFromEncoded addressNet unicodeUpper a = Ok ad)
    addresses ads ->
  addressesLoop addressNet unicodeUpper addresses (length pre)
      (pre ++ replicate (length addresses) None)
    = Ok (pre ++ map Some ads).
Proof.
  induction addresses as [|a rest IH]; intros pre ads H; inversion H; subst.
  - reflexivity.
  - cbn [addressesLoop length replicate map].
    match goal with Hx : NewAddressFromEncoded _ _ a = Ok _ |- _ => rewrite Hx end.
    cbn [bind]. rewrite insert_app_r_alt by lia. rewrite Nat.sub_diag.
    cbn [insert list_insert].
    change (pre ++ Some ?y :: ?r) with (pre ++ [Some y] ++ r).
    rewrite !(app_assoc pre).
    replace (S (length pre)) with (length (pre ++ [Some y]))
      by (rewrite length_app; cbn; lia).
    now apply IH.
Qed.

Lemma addressesLoop_inv (addresses : list string) : forall i result r,
  addressesLoop addressNet unicodeUpper addresses i result = Ok r ->
  exists ads,
    Forall2 (fun a ad => NewAddressFromEncoded addressNet unicodeUpper a = Ok ad)
      addresses ads.
Proof.
  induction addresses as [|a rest IH]; intros i result r; cbn [addressesLoop].
  - intros _. exists []. constructor.
  - destruct (NewAddressFromEncoded addressNet unicodeUpper a) as [ad| |] eqn:Ha;
      cbn [bind]; try discriminate.
    intros H. destruct (IH _ _ _ H) as [ads Hads]. exists (ad :: ads). now constructor.
Qed.

Lemma addressesLoop_fails (pre : list string) : forall a post i result,
  Forall (fun a' => exists ad,
            NewAddressFromEncoded addressNet unicodeUpper a' = Ok ad) pre ->
  addressesLoop addressNet unicodeUpper (pre ++ a :: post) i result
    = match NewAddressFromEncoded addressNet unicodeUpper a with
      | Ok ad => addressesLoop addressNet unicodeUpper (pre ++ a :: post) i result
      | Err e => Err e
      | Panic => Panic
      end.
Proof.
  induction pre as [|a0 pre IH]; intros a post i result Hpre.
  - cbn [app addressesLoop].
    now destruct (NewAddressFromEncoded addressNet unicodeUpper a).
  - inversion Hpre as [|? ? [ad0 Ha0] Hrest]; subst.
    cbn [app addressesLoop]. rewrite Ha0. cbn [bind].
    rewrite (IH a post) by exact Hrest.
    now destruct (NewAddressFromEncoded addressNet unicodeUpper a).
Qed.

(** X7. [EncodedStringToAddresses] succeeds exactly when every text parses
    with [NewAddressFromEncoded]; the result then holds the addresses of the
    texts, one for one and in order, and no nil pointer. *)
Theorem EncodedStringToAddresses_all (addresses : list string)
    (result : list (option Address)) :
  EncodedStringToAddresses addressNet unicodeUpper addresses = Ok result
  <-> exists ads,
        result = map Some ads
        /\ Forall2 (fun a ad => NewAddressFromEncoded addressNet unicodeUpper a = Ok ad)
             addresses ads.
Proof.
  unfold EncodedStringToAddresses. split.
  - intros H. destruct (addressesLoop_inv _ _ _ _ H) as [ads Hads].
    exists ads. split; [| exact Hads].
    pose proof (addressesLoop_Ok addresses [] ads Hads) as Hok.
    cbn [length app] in Hok. congruence.
  - intros (ads & -> & Hads). exact (addressesLoop_Ok addresses [] ads Hads).
Qed.

(** X8. The first text that does not parse ends [EncodedStringToAddresses]:
    its error is returned, and no address of the texts before it; when that
    text is the empty one, the call panics. *)
Theorem EncodedStringToAddresses_first_error (pre post : list string) (a : string) :
  Forall (fun a' => exists ad,
            NewAddressFromEncoded addressNet unicodeUpper a' = Ok ad) pre ->
  (forall e, NewAddressFromEncoded addressNet unicodeUpper a = Err e ->
     EncodedStringToAddresses addressNet unicodeUpper (pre ++ a :: post) = Err e)
  /\ (a = ""%string ->
      EncodedStringToAddresses addressNet unicodeUpper (pre ++ a :: post) = Panic).
Proof.
  intros Hpre. unfold EncodedStringToAddresses.
  rewrite addressesLoop_fails by exact Hpre. split.
  - intros e Ha. now rewrite Ha.
  - intros ->. reflexivity.
Qed.

(** X9. A line break in the text is skipped by the decoder and kept by
    [NewAddressFromRaw]: a raw address text followed by a line feed parses
    as the text does, to an address whose text of 41 characters ends with
    the line feed. *)
Theorem NewAddressFromRaw_keeps_newline (s : string) :
  isBase32Text s = true ->
  NewAddressFromRaw addressNet unicodeUpper (s +:+ String "010" EmptyString)
    = (let* ad := NewAddressFromRaw addressNet unicodeUpper s in
       Ok (mkAddress (Address_Type ad) (s +:+ String "010" EmptyString)))
  /\ String.length (s +:+ String "010" EmptyString) = 41%nat.
Proof.
  intros Hs.
  assert (Hb : isBase32Text s = true) by exact Hs.
  unfold isBase32Text in Hb. apply andb_true_iff in Hb as [Hlen Hall].
  apply Nat.eqb_eq in Hlen.
  assert (Hcanon : allBytes isCanonicalByte (s +:+ String "010" EmptyString) = true).
  { rewrite allBytes_app. apply andb_true_iff. split; [| reflexivity].
    revert Hall. apply allBytes_impl. exact isBase32Byte_canonical. }
  assert (Hdec : GoBase32.DecodeString (s +:+ String "010" EmptyString)
                 = GoBase32.DecodeString s).
  { unfold GoBase32.DecodeString, GoBase32.stripNewlines.
    rewrite bytes_of_string_app, filter_app.
    change (bytes_of_string (String "010" EmptyString)) with [10].
    rewrite (filter_cons_False _ 10) by (intros [_ H]; now apply H).
    now rewrite filter_nil, app_nil_r. }
  split.
  - unfold NewAddressFromRaw. rewrite Hdec.
    destruct (GoBase32.DecodeString s) as [[|v rest]| |]; cbn [bind]; try reflexivity.
    destruct (addressNet !! v); cbn [bind Address_Type NewAddress]; [| reflexivity].
    now rewrite NewAddress_canonical by exact Hcanon.
  - rewrite <- bytes_of_string_length, bytes_of_string_app, length_app,
      bytes_of_string_length, Hlen. reflexivity.
Qed.

End EncodedAddressProperties.

(** ** [Pretty] on texts of any length *)

Lemma length_append (s t : string) :
  String.length (s +:+ t) = (String.length s + String.length t)%nat.
Proof.
  induction s as [|c s IH]; [reflexivity |].
  rewrite append_cons. cbn [String.length]. now rewrite IH.
Qed.

Lemma length_substring (s : string) : forall n m : nat,
  (n + m <= String.length s)%nat -> String.length (substring n m s) = m.
Proof.
  induction s as [|c s IH]; intros n m H; cbn [String.length] in H.
  - assert (n = 0%nat) by lia. assert (m = 0%nat) by lia. now subst.
  - destruct n as [|n]; cbn [substring].
    + destruct m as [|m]; [reflexivity |]. cbn [String.length]. f_equal.
      apply IH. lia.
    + apply IH. lia.
Qed.

Lemma prettyLoop_panic (a : string) (count : nat) : forall (i : Z) (res : string),
  0 <= i -> (0 < count)%nat ->
  Z.of_nat (String.length a) < (i + Z.of_nat count) * 6 ->
  prettyLoop a count i res = Panic.
Proof.
  induction count as [|count IH]; intros i res Hi Hc Hlen; [lia |].
  cbn [prettyLoop]. unfold GoStrings.slice.
  destruct ((0 <=? i * 6) && (i * 6 <=? i * 6 + 6)
            && (i * 6 + 6 <=? Z.of_nat (String.length a))) eqn:Hok;
    [| reflexivity].
  cbn [bind]. destruct count as [|count]; [lia |].
  apply IH; lia.
Qed.

Lemma prettyLoop_ok (a : string) (count : nat) : forall (i : Z) (res : string),
  0 <= i ->
  (i + Z.of_nat count) * 6 <= Z.of_nat (String.length a) ->
  exists r, prettyLoop a count i res = Ok r
    /\ String.length r = (String.length res + 7 * count)%nat.
Proof.
  induction count as [|count IH]; intros i res Hi Hlen.
  - exists res. split; [reflexivity | lia].
  - cbn [prettyLoop]. unfold GoStrings.slice.
    replace ((0 <=? i * 6) && (i * 6 <=? i * 6 + 6)
             && (i * 6 + 6 <=? Z.of_nat (String.length a))) with true by lia.
    cbn [bind].
    destruct (IH (i + 1)
                (res +:+ substring (Z.to_nat (i * 6)) (Z.to_nat (i * 6 + 6 - i * 6)) a
                   +:+ "-")%string) as (r & -> & Hr); [lia | lia |].
    exists r. split; [reflexivity |].
    rewrite Hr, !length_append, length_substring by lia.
    cbn [String.length]. lia.
Qed.

(** X10. [Pretty] panics exactly on an address whose text has fewer than 36
    characters, the zero [Address] among them; on every other address it
    returns a text of 46 characters, whatever the length of the address
    text. *)
Theorem Pretty_panics_iff (ad : Address) :
  (Pretty ad = Panic <-> (String.length (Address_Address ad) < 36)%nat)
  /\ ((36 <= String.length (Address_Address ad))%nat ->
      exists p, Pretty ad = Ok p /\ String.length p = 46%nat).
Proof.
  unfold Pretty.
  destruct (Nat.lt_ge_cases (String.length (Address_Address ad)) 36) as [Hlt|Hge].
  - rewrite prettyLoop_panic by lia. cbn [bind].
    split; [split; [intros _; exact Hlt | reflexivity] | lia].
  - destruct (prettyLoop_ok (Address_Address ad) 6 0 "") as (r & -> & Hr); [lia | lia |].
    cbn [bind]. unfold GoStrings.slice.
    replace ((0 <=? Z.of_nat (String.length (Address_Address ad)) - 4)
             && (Z.of_nat (String.length (Address_Address ad)) - 4
                 <=? Z.of_nat (String.length (Address_Address ad)))
             && (Z.of_nat (String.length (Address_Address ad))
                 <=? Z.of_nat (String.length (Address_Address ad)))) with true by lia.
    cbn [bind].
    split; [split; [discriminate | lia] |].
    intros _. eexists. split; [reflexivity |].
    rewrite length_append, Hr, length_substring by lia. cbn [String.length]. lia.
Qed.

(** ** [NewAddress], applied twice *)

Lemma Replace_dash_ascii (s : string) :
  GoStrings.isASCII s = true ->
  allBytes (fun c => (c <? 128) && negb (c =? 45)) (GoStrings.Replace s "-" "") = true.
Proof.
  unfold GoStrings.isASCII, allBytes.
  induction s as [|c s IH]; cbn [bytes_of_string forallb GoStrings.Replace];
    [reflexivity |].
  intros H. apply andb_true_iff in H as [Hc Hs].
  rewrite ascii_eqb_byte. change (byte_of_ascii "-") with 45.
  destruct (Z.eqb_spec (byte_of_ascii c) 45) as [Heq|Hne].
  - rewrite append_nil_l. now apply IH.
  - cbn [bytes_of_string forallb]. rewrite IH by exact Hs.
    apply andb_true_iff. split; [lia | reflexivity].
Qed.

Lemma mapBytes_upper_canonical (s : string) :
  allBytes (fun c => (c <? 128) && negb (c =? 45)) s = true ->
  allBytes isCanonicalByte (GoStrings.mapBytes GoStrings.upperByte s) = true.
Proof.
  unfold allBytes.
  induction s as [|c s IH]; cbn [bytes_of_string forallb GoStrings.mapBytes];
    [reflexivity |].
  intros H. apply andb_true_iff in H as [Hc Hs]. rewrite IH by exact Hs.
  rewrite andb_true_r.
  unfold GoStrings.upperByte, GoStrings.isLower, isCanonicalByte.
  destruct ((97 <=? byte_of_ascii c) && (byte_of_ascii c <=? 122)) eqn:Hlow.
  - rewrite byte_of_ascii_of_byte by (unfold fits; lia). lia.
  - lia.
Qed.

(** X11. On ASCII text [NewAddress] normalises once and for all: the text
    of the address it returns has no dash and no lower-case letter, and
    [NewAddress] of that text is the address again. *)
Theorem NewAddress_idempotent (unicodeUpper : string -> string)
    (address : string) (networkType : NetworkType) :
  GoStrings.isASCII address = true ->
  let ad := NewAddress unicodeUpper address networkType in
  allBytes isCanonicalByte (Address_Address ad) = true
  /\ NewAddress unicodeUpper (Address_Address ad) networkType = ad.
Proof.
  intros Hascii ad.
  assert (Hcanon : allBytes isCanonicalByte (Address_Address ad) = true).
  { subst ad. unfold NewAddress. cbn [Address_Address].
    pose proof (Replace_dash_ascii address Hascii) as Hr.
    unfold GoStrings.ToUpper.
    replace (GoStrings.isASCII (GoStrings.Replace address "-" "")) with true.
    - now apply mapBytes_upper_canonical.
    - symmetry. unfold GoStrings.isASCII. revert Hr. apply allBytes_impl.
      intros c Hc. lia. }
  split; [exact Hcanon |].
  rewrite NewAddress_canonical by exact Hcanon. reflexivity.
Qed.

(** ** Little-endian bytes, read back *)

Lemma Uint64_PutUint64 (v : Z) :
  fits 64 v -> GoBinary.Uint64 (GoBinary.PutUint64 v) = Ok v.
Proof.
  intros Hv. unfold GoBinary.PutUint64, GoBinary.Uint64, uint8. cbn [map]. f_equal.
  apply Z.bits_inj'. intros n Hn.
  change 255 with (Z.ones 8).
  assert (Hbyte : forall k m, 0 <= k -> 0 <= m ->
            Z.testbit (Z.land (Z.shiftr v k) (Z.ones 8)) m
            = Z.testbit v (m + k) && (m <? 8)).
  { intros k m Hk Hm. rewrite Z.land_spec, Z.shiftr_spec by lia.
    rewrite Z.testbit_ones_nonneg by lia. reflexivity. }
  assert (Hsh : forall a k, 0 <= k ->
            Z.testbit (Z.shiftl a k) n = if k <=? n then Z.testbit a (n - k) else false).
  { intros a k Hk. destruct (Z.leb_spec k n).
    - apply Z.shiftl_spec_high; lia.
    - apply Z.shiftl_spec_low; lia. }
  rewrite !Z.lor_spec, !Hsh by lia.
  destruct (Z_lt_le_dec n 64) as [Hlt|Hge].
  - repeat match goal with
      | |- context [?k <=? n] => destruct (Z.leb_spec k n)
      end;
    repeat (rewrite Hbyte by lia);
    repeat match goal with
      | |- context [?a <? 8] => destruct (Z.ltb_spec a 8); try lia
      end;
    rewrite ?andb_false_r, ?andb_true_r, ?orb_false_r, ?orb_false_l;
    try lia; f_equal; lia.
  - rewrite (testbit_above 64 v n Hv Hge).
    repeat match goal with
      | |- context [?k <=? n] => destruct (Z.leb_spec k n); [| lia]
      end.
    repeat (rewrite Hbyte by lia).
    repeat match goal with
      | |- context [?a <? 8] => destruct (Z.ltb_spec a 8); [lia |]
      end.
    now rewrite ?andb_false_r.
Qed.

Section AliasAddressProperties.

Variable addressNet : gmap Z NetworkType.
Variable unicodeUpper : string -> string.

(** X12. An alias address parses again, from its own text, to itself, and
    the identifier of the namespace can be read back from it: the 8 bytes
    after the version byte of the decoded text are the identifier in
    little-endian order. *)
Theorem NewAddressFromNamespace_reparses (n : NamespaceId) (ad : Address) :
  NewAddressFromNamespace addressNet unicodeUpper n = Ok ad ->
  NewAddressFromRaw addressNet unicodeUpper (Address_Address ad) = Ok ad
  /\ exists pH, GoBase32.DecodeString (Address_Address ad) = Ok pH
       /\ GoBinary.Uint64 (drop 1 pH) = Ok (Id n).
Proof.
  rewrite NewAddressFromNamespace_spec.
  destruct (addressNet !! AliasAddress) as [nType|] eqn:Hnet; [| discriminate].
  intros [= <-]. cbn [Address_Address]. split.
  - change (aliasPayload n)
      with (AliasAddress :: GoBinary.PutUint64 (Id n) ++ replicate 16 0).
    rewrite NewAddressFromRaw_EncodeToString by apply (aliasPayload_quanta n).
    unfold NetworkType in *. now rewrite Hnet.
  - exists (aliasPayload n). split.
    + apply DecodeString_EncodeToString, aliasPayload_quanta.
    + pose proof (Uint64_PutUint64 (Id n) (Id_fits n)) as H.
      unfold GoBinary.PutUint64 in H |- *. unfold aliasPayload.
      cbn [map app drop] in H |- *. exact H.
Qed.

(** X13. The version table alone decides what [NewAddressFromNamespace]
    returns: with an entry for the alias version byte it succeeds for every
    identifier, with the network type of the entry and a text of 40
    characters of the base32 alphabet; without one it fails for every
    identifier with the invalid-address error. *)
Theorem NewAddressFromNamespace_total (n : NamespaceId) :
  match addressNet !! AliasAddress with
  | Some nType =>
      exists text,
        NewAddressFromNamespace addressNet unicodeUpper n = Ok (mkAddress nType text)
        /\ isBase32Text text = true
  | None =>
      NewAddressFromNamespace addressNet unicodeUpper n = Err ErrInvalidAddress
  end.
Proof.
  rewrite NewAddressFromNamespace_spec.
  destruct (addressNet !! AliasAddress) as [nType|]; [| reflexivity].
  eexists. split; [reflexivity |].
  pose proof (Encode_quanta_base32 _ (aliasPayload_quanta n)) as Hb.
  unfold isBase32Text, GoBase32.EncodeToString. apply andb_true_iff. split.
  - apply Nat.eqb_eq. rewrite <- bytes_of_string_length.
    rewrite bytes_of_string_of_bytes
      by (eapply Forall_impl; [exact Hb | exact isBase32Byte_fits]).
    reflexivity.
  - rewrite allBytes_string_of_bytes
      by (eapply Forall_impl; [exact Hb | exact isBase32Byte_fits]).
    apply forallb_forall. rewrite List.Forall_forall in Hb. exact Hb.
Qed.

End AliasAddressProperties.

(** ** The checksum, for any hash *)

Section ChecksumOutcomes.

Variable HashesSha3_256 : list Z -> outcome ByteSlice.

(** X14. Whatever the hash primitive returns, a checksum that
    [GenerateChecksum] returns has exactly 4 bytes, the first 4 of the
    array behind the digest; they are the first 4 bytes of the digest when
    the digest has at least 4, whatever its capacity.  An error of the
    primitive is passed on.  A digest of fewer than 4 bytes makes the call
    panic only when its capacity is below 4 too; with capacity to spare the
    call returns 4 bytes, the digest and bytes past its end. *)
Theorem GenerateChecksum_outcomes (b : list Z) :
  (forall r, GenerateChecksum HashesSha3_256 b = Ok r ->
     length r = 4%nat
     /\ exists h, HashesSha3_256 b = Ok h
          /\ r = take 4 (slice_bytes h ++ slice_spare h))
  /\ (forall h, HashesSha3_256 b = Ok h -> (4 <= length (slice_bytes h))%nat ->
        GenerateChecksum HashesSha3_256 b = Ok (take 4 (slice_bytes h)))
  /\ (forall e, GenerateChecksum HashesSha3_256 b = Err e <-> HashesSha3_256 b = Err e)
  /\ (GenerateChecksum HashesSha3_256 b = Panic
      <-> HashesSha3_256 b = Panic
          \/ exists h, HashesSha3_256 b = Ok h
               /\ (length (slice_bytes h) + length (slice_spare h) < 4)%nat)
  /\ (forall h, HashesSha3_256 b = Ok h ->
        (length (slice_bytes h) < 4)%nat ->
        (4 <= length (slice_bytes h) + length (slice_spare h))%nat ->
        GenerateChecksum HashesSha3_256 b
          = Ok (slice_bytes h ++ take (4 - length (slice_bytes h)) (slice_spare h))).
Proof.
  unfold GenerateChecksum, NUM_CHECKSUM_BYTES.
  destruct (HashesSha3_256 b) as [h|e|]; cbn [bind].
  - rewrite length_app.
    destruct (Nat.leb_spec 4 (length (slice_bytes h) + length (slice_spare h)))
      as [Hle|Hlt].
    + split; [| split; [| split; [| split]]].
      * intros r [= <-].
        split; [rewrite length_take, length_app; lia | now exists h].
      * intros h' [= <-] Hlen. now rewrite take_app_le by exact Hlen.
      * intros e. split; discriminate.
      * split; [discriminate |].
        intros [H|(h' & [= <-] & Hlt)]; [discriminate | lia].
      * intros h' [= <-] Hlen _. rewrite take_app_ge by lia.
        reflexivity.
    + split; [| split; [| split; [| split]]].
      * discriminate.
      * intros h' [= <-] Hlen. lia.
      * intros e. split; discriminate.
      * split; [| reflexivity]. intros _. right. now exists h.
      * intros h' [= <-] Hlen Hcap. lia.
  - split; [discriminate |]. split; [discriminate |].
    split; [intros e'; split; intros [= ->]; reflexivity |].
    split; [| discriminate].
    split; [discriminate | intros [H|(h & H & _)]; discriminate].
  - split; [discriminate |]. split; [discriminate |].
    split; [intros e'; split; discriminate |].
    split; [| discriminate].
    split; [intros _; now left | reflexivity].
Qed.

End ChecksumOutcomes.

(** ** Aliases of a namespace *)

Section NamespaceAliasProperties.

Variable addressNet : gmap Z NetworkType.
Variable unicodeUpper : string -> string.
Variable AddressAliasType MosaicAliasType : Z.
Variable MosaicId : Type.
Variable mosaicIdDTO : Type.
Variable toStruct : mosaicIdDTO -> outcome (option MosaicId).

(** X15. An alias that [NewNamespaceAlias] returns has the type of the DTO
    and holds at most one target, the one of its type: an address only
    under the address type, and then always, parsed from the text of the
    DTO; a mosaic identifier only under the mosaic type (and when the two
    constants differ, as they must in a [switch]); nothing under any other
    type. *)
Theorem NewNamespaceAlias_exclusive
    (dto : namespaceAliasDTO mosaicIdDTO) (alias : NamespaceAlias MosaicId) :
  NewNamespaceAlias addressNet unicodeUpper AddressAliasType MosaicAliasType
    MosaicId mosaicIdDTO toStruct dto = Ok alias ->
  alias_Type _ alias = dto_Type _ dto
  /\ (alias_address _ alias = None \/ alias_mosaicId _ alias = None)
  /\ (dto_Type _ dto = AddressAliasType ->
      alias_mosaicId _ alias = None
      /\ exists a, alias_address _ alias = Some a
           /\ NewAddressFromBase32 addressNet unicodeUpper (dto_Address _ dto) = Ok a)
  /\ (dto_Type _ dto <> AddressAliasType ->
      alias_address _ alias = None
      /\ (alias_mosaicId _ alias <> None -> dto_Type _ dto = MosaicAliasType)).
Proof.
  unfold NewNamespaceAlias. cbn [alias_Type alias_mosaicId alias_address].
  destruct (Z.eqb_spec (dto_Type _ dto) AddressAliasType) as [Ha|Ha].
  - destruct (NewAddressFromBase32 addressNet unicodeUpper (dto_Address _ dto))
      as [a| |]; cbn [bind]; try discriminate.
    intros [= <-]. cbn [alias_Type alias_mosaicId alias_address].
    split; [reflexivity |]. split; [now right |].
    split; [| intros Hne; contradiction].
    intros _. split; [reflexivity |]. now exists a.
  - destruct (Z.eqb_spec (dto_Type _ dto) MosaicAliasType) as [Hm|Hm].
    + destruct (toStruct (dto_MosaicId _ dto)) as [m| |]; cbn [bind]; try discriminate.
      intros [= <-]. cbn [alias_Type alias_mosaicId alias_address].
      split; [reflexivity |]. split; [now left |].
      split; [intros Heq; contradiction |]. intros _. now split.
    + intros [= <-]. cbn [alias_Type alias_mosaicId alias_address].
      split; [reflexivity |]. split; [now left |].
      split; [intros Heq; contradiction |].
      intros _. split; [reflexivity |]. intros Hne. contradiction.
Qed.

End NamespaceAliasProperties.

(** ** The configuration of the client *)

Section ClientConfigProperties.

Variable float64 : Type.
Variable float_0_9 : float64.
Variable urlParse : string -> outcome string.
Variable errorsNew : string -> error.

Lemma parseLoop_Ok (baseUrls : list string) : forall urls r,
  parseLoop urlParse baseUrls urls = Ok r ->
  exists hosts,
    Forall2 (fun s h => urlParse s = Ok h) baseUrls hosts
    /\ r = urls ++ imap (fun i h => mkURL (length urls + i) h) hosts.
Proof.
  induction baseUrls as [|s rest IH]; intros urls r; cbn [parseLoop].
  - intros [= <-]. exists []. split; [constructor | now rewrite app_nil_r].
  - destruct (urlParse s) as [h| |] eqn:Hs; cbn [bind]; try discriminate.
    intros H. destruct (IH _ _ H) as (hosts & Hall & ->).
    exists (h :: hosts). split; [now constructor |].
    rewrite <- app_assoc. cbn [app imap]. rewrite Nat.add_0_r. do 2 f_equal.
    apply imap_ext. intros i x _. cbn. rewrite length_app. cbn [length].
    f_equal. lia.
Qed.

Lemma parseLoop_complete (baseUrls : list string) : forall urls hosts,
  Forall2 (fun s h => urlParse s = Ok h) baseUrls hosts ->
  parseLoop urlParse baseUrls urls
    = Ok (urls ++ imap (fun i h => mkURL (length urls + i) h) hosts).
Proof.
  induction baseUrls as [|s rest IH]; intros urls hosts H; inversion H; subst.
  - cbn. now rewrite app_nil_r.
  - cbn [parseLoop].
    match goal with Hx : urlParse s = Ok _ |- _ => rewrite Hx end.
    cbn [bind]. rewrite (IH _ l') by assumption.
    rewrite <- app_assoc. cbn [app imap]. rewrite Nat.add_0_r. do 3 f_equal.
    apply imap_ext. intros i x _. cbn. rewrite length_app. cbn [length].
    f_equal. lia.
Qed.

Lemma parseLoop_fails (pre : list string) : forall s post urls,
  Forall (fun s' => exists h, urlParse s' = Ok h) pre ->
  (forall h, urlParse s <> Ok h) ->
  parseLoop urlParse (pre ++ s :: post) urls
    = match urlParse s with Ok _ => Panic | Err e => Err e | Panic => Panic end.
Proof.
  induction pre as [|s0 pre IH]; intros s post urls Hpre Hs.
  - cbn [app parseLoop]. destruct (urlParse s) as [h| |]; [| reflexivity ..].
    now destruct (Hs h).
  - inversion Hpre as [|? ? [h0 Hh0] Hrest]; subst.
    cbn [app parseLoop]. rewrite Hh0. cbn [bind]. now apply IH.
Qed.

Lemma imap_mkURL_ptr (hosts : list string) : forall k : nat,
  map URL_ptr (imap (fun i h => mkURL (k + i) h) hosts) = seq k (length hosts).
Proof.
  induction hosts as [|h hosts IH]; intros k; [reflexivity |].
  cbn [imap map length seq URL_ptr]. rewrite Nat.add_0_r. f_equal.
  rewrite <- (IH (S k)). f_equal. apply imap_ext. intros i x _. cbn.
  f_equal. lia.
Qed.

Lemma imap_mkURL_host (hosts : list string) : forall k : nat,
  map URL_Host (imap (fun i h => mkURL (k + i) h) hosts) = hosts.
Proof.
  induction hosts as [|h hosts IH]; intros k; [reflexivity |].
  cbn [imap map URL_Host]. f_equal. rewrite <- (IH (S k)) at 2. f_equal.
  apply imap_ext. intros i x _. cbn. f_equal. lia.
Qed.

(** X16. [NewConfigWithReputation] on a list of texts that all parse:
    it fails on the empty list, with the error made for it; on any other
    list it returns a configuration with one URL per text, in order, each a
    value of its own, and the first of them in use; the access [urls[0]]
    is never out of range. *)
Theorem NewConfigWithReputation_parsed (baseUrls : list string) (hosts : list string)
    (networkType : NetworkType) (repConf : option (reputationConfig float64))
    (wsReconnectionTimeout : Z) :
  Forall2 (fun s h => urlParse s = Ok h) baseUrls hosts ->
  match baseUrls with
  | [] =>
      NewConfigWithReputation float64 urlParse errorsNew baseUrls networkType
        repConf wsReconnectionTimeout = Err (errorsNew "empty base urls")
  | _ :: _ =>
      exists c,
        NewConfigWithReputation float64 urlParse errorsNew baseUrls networkType
          repConf wsReconnectionTimeout = Ok c
        /\ map URL_Host (BaseURLs _ c) = hosts
        /\ BaseURLs _ c !! 0%nat = Some (UsedBaseUrl _ c)
        /\ NoDup (map URL_ptr (BaseURLs _ c))
        /\ WsReconnectionTimeout _ c = wsReconnectionTimeout
        /\ Config_NetworkType _ c = networkType
        /\ Config_reputationConfig _ c = repConf
  end.
Proof.
  intros Hall. unfold NewConfigWithReputation.
  destruct baseUrls as [|s rest]; [reflexivity |].
  cbn [length Nat.eqb].
  rewrite (parseLoop_complete _ [] hosts Hall). cbn [bind app length].
  pose proof (imap_mkURL_ptr hosts 0) as Hptr.
  pose proof (imap_mkURL_host hosts 0) as Hhost.
  inversion Hall as [|? h ? hosts' Hs Hrest]; subst.
  destruct (imap (fun i h0 => mkURL (0 + i) h0) (h :: hosts')) as [|url0 urls] eqn:E;
    [discriminate E |].
  eexists. split; [reflexivity |].
  cbn [BaseURLs UsedBaseUrl WsReconnectionTimeout Config_NetworkType
       Config_reputationConfig].
  split; [exact Hhost |]. split; [reflexivity |].
  split; [rewrite Hptr; apply NoDup_seq | repeat split].
Qed.

(** X17. [NewConfigWithReputation] stops at the first text that does not
    parse and returns the error of [url.Parse]. *)
Theorem NewConfigWithReputation_first_error (pre post : list string) (s : string)
    (e : error) (networkType : NetworkType)
    (repConf : option (reputationConfig float64)) (wsReconnectionTimeout : Z) :
  Forall (fun s' => exists h, urlParse s' = Ok h) pre ->
  urlParse s = Err e ->
  NewConfigWithReputation float64 urlParse errorsNew (pre ++ s :: post)
    networkType repConf wsReconnectionTimeout = Err e.
Proof.
  intros Hpre Hs. unfold NewConfigWithReputation.
  replace (length (pre ++ s :: post) =? 0)%nat with false
    by (symmetry; apply Nat.eqb_neq; rewrite length_app; cbn; lia).
  rewrite parseLoop_fails by (try exact Hpre; intros h; congruence).
  now rewrite Hs.
Qed.

(** X18. A configuration made by [NewConfig] never has the reconnection
    timeout 0: 0 is replaced by five seconds and every other value is kept,
    a negative one too; its reputation settings are the default ones. *)
Theorem NewConfig_timeout (baseUrls : list string) (networkType : NetworkType)
    (wsReconnectionTimeout : Z) (c : Config float64) :
  NewConfig float64 float_0_9 urlParse errorsNew baseUrls networkType
    wsReconnectionTimeout = Ok c ->
  WsReconnectionTimeout _ c <> 0
  /\ (wsReconnectionTimeout <> 0 ->
      WsReconnectionTimeout _ c = wsReconnectionTimeout)
  /\ (wsReconnectionTimeout = 0 -> WsReconnectionTimeout _ c = 5000000000)
  /\ Config_reputationConfig _ c = Some (mkReputationConfig _ 10 float_0_9).
Proof.
  unfold NewConfig, NewConfigWithReputation.
  destruct (length baseUrls =? 0)%nat; [discriminate |].
  destruct (parseLoop urlParse baseUrls []) as [[|url0 urls]| |];
    cbn [bind]; try discriminate.
  intros [= <-]. cbn [WsReconnectionTimeout Config_reputationConfig].
  unfold WebsocketReconnectionDefaultTimeout.
  split; [| split; [| split]]; [| | | reflexivity];
    destruct (Z.eqb_spec wsReconnectionTimeout 0); lia.
Qed.

End ClientConfigProperties.

(** ** Fail-over between the base URLs *)

Section FailoverProperties.

Variable float64 : Type.
Variable world : nat -> outcome Response.
Variable NewRequest : Config float64 -> outcome string.
Variable isUrlError : error -> bool.

Lemma failover_skip (c : Config float64) (urls : list URL) :
  forall k sent err,
  failover float64 world c urls k sent err
    = failover float64 world c
        (filter (fun url => URL_ptr (UsedBaseUrl _ c) <> URL_ptr url) urls) k sent err.
Proof.
  induction urls as [|url urls IH]; intros k sent err; [reflexivity |].
  destruct (Nat.eqb_spec (URL_ptr (UsedBaseUrl _ c)) (URL_ptr url)) as [Heq|Hne].
  - rewrite filter_cons_False by (intros H; now apply H).
    cbn [failover]. rewrite <- Nat.eqb_eq in Heq. rewrite Heq. apply IH.
  - rewrite filter_cons_True by exact Hne.
    cbn [failover]. rewrite <- Nat.eqb_neq in Hne. rewrite Hne.
    destruct (world k); [reflexivity | apply IH | reflexivity].
Qed.

Lemma failover_success (c : Config float64) (pre : list URL) :
  forall (u : URL) (post : list URL) k sent err resp,
  Forall (fun url => URL_ptr (UsedBaseUrl _ c) <> URL_ptr url) (pre ++ [u]) ->
  (forall j, (j < length pre)%nat -> exists e, world (k + j)%nat = Err e) ->
  world (k + length pre)%nat = Ok resp ->
  failover float64 world c (pre ++ u :: post) k sent err
    = (setUsedBaseUrl _ c u, sent ++ map URL_Host pre ++ [URL_Host u], Ok resp).
Proof.
  induction pre as [|url pre IH]; intros u post k sent err resp Hne Hfail Hok.
  - cbn [app failover length map]. rewrite Nat.add_0_r in Hok.
    inversion Hne as [|? ? Hu _]; subst.
    rewrite <- Nat.eqb_neq in Hu. now rewrite Hu, Hok.
  - cbn [app failover length map].
    inversion Hne as [|? ? Hu Hrest]; subst.
    rewrite <- Nat.eqb_neq in Hu. rewrite Hu.
    destruct (Hfail 0%nat) as [e He]; [cbn; lia |].
    rewrite Nat.add_0_r in He. rewrite He.
    rewrite (IH u post (S k) _ e resp Hrest).
    + now rewrite <- app_assoc.
    + intros j Hj. destruct (Hfail (S j)) as [e' He']; [cbn; lia |].
      exists e'. rewrite Nat.add_succ_r in He'. exact He'.
    + cbn [length] in Hok. rewrite Nat.add_succ_r in Hok. exact Hok.
Qed.

Lemma failover_all_fail (c : Config float64) (urls : list URL) :
  forall k sent err,
  Forall (fun url => URL_ptr (UsedBaseUrl _ c) <> URL_ptr url) urls ->
  world k = Err err ->
  (forall j, (j < length urls)%nat -> exists e, world (S k + j)%nat = Err e) ->
  failover float64 world c urls (S k) sent err
    = (c, sent ++ map URL_Host urls, world (k + length urls)%nat).
Proof.
  induction urls as [|url urls IH]; intros k sent err Hne Hk Hfail.
  - cbn [failover map length]. now rewrite app_nil_r, Nat.add_0_r, Hk.
  - cbn [failover map length].
    inversion Hne as [|? ? Hu Hrest]; subst.
    rewrite <- Nat.eqb_neq in Hu. rewrite Hu.
    destruct (Hfail 0%nat) as [e He]; [cbn; lia |].
    rewrite Nat.add_0_r in He. rewrite He.
    rewrite (IH (S k) _ e Hrest He).
    + rewrite <- app_assoc. cbn [app]. now rewrite Nat.add_succ_r.
    + intros j Hj. destruct (Hfail (S j)) as [e' He']; [cbn; lia |].
      exists e'. rewrite Nat.add_succ_r in He'. exact He'.
Qed.

Lemma others_Forall (c : Config float64) :
  Forall (fun url => URL_ptr (UsedBaseUrl _ c) <> URL_ptr url) (others _ c).
Proof.
  unfold others. apply Forall_forall. intros url Hin.
  apply list_elem_of_filter in Hin. tauto.
Qed.

(** X19. Fail-over.  When the first request fails with a URL error, the
    other base URLs are tried in the order of the configuration, the one in
    use left out; the first that answers becomes the URL in use and its
    response is returned; one request was sent to each URL tried. *)
Theorem DoNewRequest_failover (c : Config float64) (host : string) (e0 : error)
    (pre post : list URL) (u : URL) (resp : Response) :
  NewRequest c = Ok host ->
  world 0%nat = Err e0 ->
  isUrlError e0 = true ->
  others _ c = pre ++ u :: post ->
  (forall j, (j < length pre)%nat -> exists e, world (S j) = Err e) ->
  world (S (length pre)) = Ok resp ->
  DoNewRequest float64 world NewRequest isUrlError c
    = (setUsedBaseUrl _ c u, host :: map URL_Host pre ++ [URL_Host u], Ok resp).
Proof.
  intros Hreq H0 Hurl Hothers Hfail Hok.
  unfold DoNewRequest. rewrite Hreq, H0, Hurl.
  rewrite failover_skip. fold (others float64 c). rewrite Hothers.
  rewrite (failover_success c pre u post 1 [host] e0 resp); [reflexivity | | |].
  - pose proof (others_Forall c) as H. rewrite Hothers in H.
    change (pre ++ u :: post) with (pre ++ [u] ++ post) in H.
    rewrite app_assoc in H. now apply Forall_app in H as [H _].
  - exact Hfail.
  - exact Hok.
Qed.

(** X20. When the first request fails with a URL error and so does the
    request to every other base URL, [DoNewRequest] returns the error of
    the last request sent and leaves the configuration as it was; with no
    other base URL that is the first error. *)
Theorem DoNewRequest_all_fail (c : Config float64) (host : string) (e0 : error) :
  NewRequest c = Ok host ->
  world 0%nat = Err e0 ->
  isUrlError e0 = true ->
  (forall j, (j <= length (others _ c))%nat -> exists e, world j = Err e) ->
  DoNewRequest float64 world NewRequest isUrlError c
    = (c, host :: map URL_Host (others _ c), world (length (others _ c))).
Proof.
  intros Hreq H0 Hurl Hfail.
  unfold DoNewRequest. rewrite Hreq, H0, Hurl.
  rewrite failover_skip. fold (others float64 c).
  rewrite (failover_all_fail c (others _ c) 0 [host] e0 (others_Forall c) H0);
    [reflexivity |].
  intros j Hj. apply Hfail. lia.
Qed.

Lemma failover_invariant (c : Config float64) (urls : list URL) :
  forall k sent err c' sent' r,
  failover float64 world c urls k sent err = (c', sent', r) ->
  (c' = c /\ (forall resp, r <> Ok resp)
   \/ exists url, In url urls
        /\ URL_ptr (UsedBaseUrl _ c) <> URL_ptr url
        /\ c' = setUsedBaseUrl _ c url
        /\ exists resp, r = Ok resp)
  /\ (length sent' <= length sent + length urls)%nat.
Proof.
  induction urls as [|url urls IH]; intros k sent err c' sent' r; cbn [failover].
  - intros [= <- <- <-]. split; [left; split; [reflexivity | discriminate] | cbn; lia].
  - destruct (Nat.eqb_spec (URL_ptr (UsedBaseUrl _ c)) (URL_ptr url)) as [Heq|Hne].
    + intros H. destruct (IH _ _ _ _ _ _ H) as [Hc Hlen].
      split; [| cbn; lia].
      destruct Hc as [Hc|(u & Hin & Hu)]; [now left |].
      right. exists u. split; [now right | exact Hu].
    + destruct (world k) as [resp|e|] eqn:Hk.
      * intros [= <- <- <-]. split; [| rewrite length_app; cbn; lia].
        right. exists url. split; [now left |]. split; [exact Hne |].
        split; [reflexivity | now exists resp].
      * intros H. destruct (IH _ _ _ _ _ _ H) as [Hc Hlen].
        split; [| rewrite length_app in Hlen; cbn in *; lia].
        destruct Hc as [Hc|(u & Hin & Hu)]; [now left |].
        right. exists u. split; [now right | exact Hu].
      * intros [= <- <- <-]. split; [| rewrite length_app; cbn; lia].
        left. split; [reflexivity | discriminate].
Qed.

(** X21. Whatever the network does, [DoNewRequest] sends at most one
    request more than there are base URLs, and it changes the configuration
    in one case only: it returns a response, and the URL in use has become
    another URL of the list of base URLs, nothing else being changed.  An
    error of the first request that is not a URL error is returned at once,
    after that one request. *)
Theorem DoNewRequest_invariant (c c' : Config float64) (sent : list string)
    (r : outcome Response) :
  DoNewRequest float64 world NewRequest isUrlError c = (c', sent, r) ->
  (length sent <= 1 + length (BaseURLs _ c))%nat
  /\ (c' = c
      \/ exists url resp,
           r = Ok resp /\ In url (BaseURLs _ c)
           /\ URL_ptr (UsedBaseUrl _ c) <> URL_ptr url
           /\ c' = setUsedBaseUrl _ c url)
  /\ (forall host e,
        NewRequest c = Ok host -> world 0%nat = Err e -> isUrlError e = false ->
        c' = c /\ sent = [host] /\ r = Err e).
Proof.
  unfold DoNewRequest.
  destruct (NewRequest c) as [host| |].
  - destruct (world 0%nat) as [resp|e|] eqn:H0.
    + intros [= <- <- <-]. split; [cbn; lia |]. split; [now left | discriminate].
    + destruct (isUrlError e) eqn:Hurl.
      * intros H. apply failover_invariant in H as [Hc Hlen]. cbn [length] in Hlen.
        split; [lia |]. split; [| intros host' e' _ [= <-] He'; congruence].
        destruct Hc as [[-> _]|(url & Hin & Hne & -> & resp & ->)]; [now left |].
        right. now exists url, resp.
      * intros [= <- <- <-]. split; [cbn; lia |]. split; [now left |].
        intros host' e' [= <-] [= <-] _. now repeat split.
    + intros [= <- <- <-]. split; [cbn; lia |]. split; [now left | discriminate].
  - intros [= <- <- <-]. split; [cbn; lia |]. split; [now left | discriminate].
  - intros [= <- <- <-]. split; [cbn; lia |]. split; [now left | discriminate].
Qed.

End FailoverProperties.

(** ** Status codes *)

Section StatusCodeProperties.

Variable ErrInternalError ErrNotAcceptedResponseStatusCode : error.

(** X22. [handleResponseStatusCode] returns nil in two cases only: the map
    holds nil for the status code, or the map has no entry for it and the
    code is 200 or 202.  An entry of the map goes before the two accepted
    codes, a nil map is an empty map, and a nil response is the internal
    error whatever the map. *)
Theorem handleResponseStatusCode_nil_iff (resp : option Response)
    (codeToErrs : option (gmap Z (option error))) :
  let entries := default ∅ codeToErrs in
  handleResponseStatusCode ErrInternalError ErrNotAcceptedResponseStatusCode
      resp codeToErrs
    = handleResponseStatusCode ErrInternalError ErrNotAcceptedResponseStatusCode
        resp (Some entries)
  /\ (handleResponseStatusCode ErrInternalError ErrNotAcceptedResponseStatusCode
        resp codeToErrs = None
      <-> exists r, resp = Some r
            /\ (entries !! StatusCode r = Some None
                \/ entries !! StatusCode r = None
                   /\ (StatusCode r = 200 \/ StatusCode r = 202)))
  /\ (forall r err, resp = Some r -> entries !! StatusCode r = Some err ->
        handleResponseStatusCode ErrInternalError ErrNotAcceptedResponseStatusCode
          resp codeToErrs = err)
  /\ (resp = None ->
        handleResponseStatusCode ErrInternalError ErrNotAcceptedResponseStatusCode
          resp codeToErrs = Some ErrInternalError).
Proof.
  intros entries. unfold handleResponseStatusCode.
  assert (Hlook : forall r,
            match codeToErrs with Some m => m !! StatusCode r | None => None end
            = entries !! StatusCode r).
  { intros r. subst entries. destruct codeToErrs as [m|]; cbn; [reflexivity |].
    symmetry. apply lookup_empty. }
  split; [| split; [| split]].
  - destruct resp as [r|]; [| reflexivity]. now rewrite Hlook.
  - destruct resp as [r|].
    + rewrite Hlook. split.
      * intros H. exists r. split; [reflexivity |].
        destruct (entries !! StatusCode r) as [err|]; [left; now subst |].
        right. split; [reflexivity |].
        destruct (Z.eqb_spec (StatusCode r) 200), (Z.eqb_spec (StatusCode r) 202);
          cbn in H; try discriminate; auto.
      * intros (r' & [= <-] & [H|[H Hcode]]); rewrite H; [reflexivity |].
        destruct Hcode as [-> | ->]; reflexivity.
    + split; [discriminate | intros (r & H & _); discriminate].
  - intros r err -> H. now rewrite Hlook, H.
  - now intros ->.
Qed.

End StatusCodeProperties.

(** ** The statements on concrete data *)

Lemma GenerateNamespacePath_chain_witness :
  GenerateNamespacePath regValidNamespace_spec generateNamespaceId_spec "prx.xpx"
    = Ok samplePath
  /\ length samplePath = 2%nat
  /\ exists id, samplePath !! 1%nat = Some id
       /\ generateNamespaceId_spec "xpx"
            (parentAt (NewNamespaceIdNoCheck 0) samplePath 1) = Ok id.
Proof.
  assert (H : GenerateNamespacePath regValidNamespace_spec generateNamespaceId_spec
                "prx.xpx" = Ok samplePath) by (vm_compute; reflexivity).
  split; [exact H |].
  destruct (GenerateNamespacePath_chain regValidNamespace_spec
              generateNamespaceId_spec "prx.xpx" samplePath H)
    as (_ & _ & Hlen & Hchain).
  split; [exact Hlen |]. apply (Hchain 1%nat "xpx"%string). reflexivity.
Defined.

Lemma NewAddressFromNamespace_layout_witness :
  GoHex.DecodeString (aliasAddressHex sampleNamespaceId)
    = Ok [145; 75; 250; 95; 55; 45; 85; 179; 132;
          0; 0; 0; 0; 0; 0; 0; 0; 0; 0; 0; 0; 0; 0; 0; 0]
  /\ NewAddressFromNamespace sampleAddressNet sampleUnicodeUpper sampleNamespaceId
     = Ok (mkAddress AliasAddress "SFF7UXZXFVK3HBAAAAAAAAAAAAAAAAAAAAAAAAAA").
Proof.
  destruct (NewAddressFromNamespace_layout sampleAddressNet sampleUnicodeUpper
              sampleNamespaceId) as (Hhex & _ & _ & _ & Hraw).
  split; [rewrite Hhex; vm_compute; reflexivity |].
  rewrite Hraw. vm_compute. reflexivity.
Defined.

(** The claim of C4 fails: a text of 8 characters decodes to 5 bytes, not to
    the 25 bytes of an address, and is accepted all the same. *)
Lemma NewAddressFromRaw_accepts_short_text :
  GoBase32.DecodeString "SEAAAAAA" = Ok [145; 0; 0; 0; 0]
  /\ length [145; 0; 0; 0; 0] <> 25%nat
  /\ NewAddressFromRaw sampleAddressNet sampleUnicodeUpper "SEAAAAAA"
     = Ok (mkAddress AliasAddress "SEAAAAAA").
Proof. split; [| split]; [vm_compute; reflexivity | discriminate | vm_compute; reflexivity]. Qed.

Lemma NewAddressFromRaw_outcomes_witness :
  NewAddressFromRaw sampleAddressNet sampleUnicodeUpper "MZXW6-YTB"
    = Err CorruptInputError
  /\ NewAddressFromRaw sampleAddressNet sampleUnicodeUpper "MZXW6YTB"
    = Err ErrInvalidAddress
  /\ NewAddressFromRaw sampleAddressNet sampleUnicodeUpper "SEAAAAAA"
    = Ok (NewAddress sampleUnicodeUpper "SEAAAAAA" AliasAddress)
  /\ exists v rest,
       GoBase32.DecodeString sampleAddressText = Ok (v :: rest)
       /\ length (v :: rest) = 25%nat
       /\ forall nType, sampleAddressNet !! v = Some nType ->
            NewAddressFromRaw sampleAddressNet sampleUnicodeUpper sampleAddressText
              = Ok (mkAddress nType sampleAddressText).
Proof.
  split; [| split; [| split]].
  - apply (NewAddressFromRaw_outcomes sampleAddressNet sampleUnicodeUpper "MZXW6-YTB").
    vm_compute. reflexivity.
  - apply (proj1 (proj2 (NewAddressFromRaw_outcomes sampleAddressNet
                           sampleUnicodeUpper "MZXW6YTB")) 102 [111; 111; 98; 97]);
      vm_compute; reflexivity.
  - apply (proj1 (proj2 (proj2 (NewAddressFromRaw_outcomes sampleAddressNet
                                  sampleUnicodeUpper "SEAAAAAA"))) 145 [0; 0; 0; 0]);
      vm_compute; reflexivity.
  - apply (proj2 (proj2 (proj2 (NewAddressFromRaw_outcomes sampleAddressNet
                                  sampleUnicodeUpper sampleAddressText)))).
    vm_compute. reflexivity.
Defined.

(** The claim of C5 fails: the raw text of an address parses, its pretty
    text does not, and neither does its lower-case text. *)
Lemma NewAddressFromRaw_pretty_text_fails :
  NewAddressFromRaw sampleAddressNet sampleUnicodeUpper sampleAddressText
    = Ok (mkAddress AliasAddress sampleAddressText)
  /\ Pretty (mkAddress AliasAddress sampleAddressText)
    = Ok "SFF7UX-ZXFVK3-HBAAAA-AAAAAA-AAAAAA-AAAAAA-AAAA"%string
  /\ NewAddressFromRaw sampleAddressNet sampleUnicodeUpper
       "SFF7UX-ZXFVK3-HBAAAA-AAAAAA-AAAAAA-AAAAAA-AAAA"
    = Err CorruptInputError
  /\ NewAddressFromRaw sampleAddressNet sampleUnicodeUpper
       "sff7uxzxfvk3hbaaaaaaaaaaaaaaaaaaaaaaaaaa"
    = Err CorruptInputError.
Proof. repeat split; vm_compute; reflexivity. Qed.

Lemma NewAddressFromRaw_rejects_pretty_witness :
  exists p, Pretty (mkAddress AliasAddress sampleAddressText) = Ok p
    /\ NewAddress sampleUnicodeUpper p AliasAddress
       = NewAddress sampleUnicodeUpper sampleAddressText AliasAddress
    /\ NewAddressFromRaw sampleAddressNet sampleUnicodeUpper p = Err CorruptInputError
    /\ exists v rest, GoBase32.DecodeString sampleAddressText = Ok (v :: rest)
         /\ forall nType, sampleAddressNet !! v = Some nType ->
              NewAddressFromRaw sampleAddressNet sampleUnicodeUpper sampleAddressText
                = Ok (mkAddress nType sampleAddressText).
Proof.
  apply (NewAddressFromRaw_rejects_pretty sampleAddressNet sampleUnicodeUpper
           AliasAddress sampleAddressText).
  vm_compute. reflexivity.
Defined.

Lemma GenerateChecksum_first_four_witness :
  GenerateChecksum HashesSha3_256_ref (bytes_of_string "abc")
    = Ok (take 4 (Sha3.sha3_256 (bytes_of_string "abc")))
  /\ length (take 4 (Sha3.sha3_256 (bytes_of_string "abc"))) = 4%nat
  /\ GenerateChecksum HashesSha3_256_ref [] = Ok (take 4 (Sha3.sha3_256 [])).
Proof.
  apply (GenerateChecksum_first_four HashesSha3_256_ref Sha3.sha3_256).
  - intros m. exists []. reflexivity.
  - exact sha3_256_length.
Defined.

Lemma GenerateNamespacePath_rejects_witness :
  GenerateNamespacePath regValidNamespace_spec generateNamespaceId_spec ""
    = Err ErrInvalidNamespaceName
  /\ GenerateNamespacePath regValidNamespace_spec generateNamespaceId_spec "."
    = Err ErrInvalidNamespaceName
  /\ (forall name, (3 <= countByte "." name)%nat ->
       GenerateNamespacePath regValidNamespace_spec generateNamespaceId_spec name
         = Err ErrNamespaceTooManyPart)
  /\ GenerateNamespacePath regValidNamespace_spec generateNamespaceId_spec "a.b.c.d"
    = Err ErrNamespaceTooManyPart.
Proof.
  apply (GenerateNamespacePath_rejects regValidNamespace_spec generateNamespaceId_spec).
  reflexivity.
Defined.

Lemma Pretty_NewAddress_roundtrip_witness :
  exists p, Pretty (mkAddress AliasAddress sampleAddressText) = Ok p
    /\ NewAddress sampleUnicodeUpper p AliasAddress
       = mkAddress AliasAddress sampleAddressText.
Proof.
  apply (Pretty_NewAddress_roundtrip sampleUnicodeUpper
           (mkAddress AliasAddress sampleAddressText)).
  vm_compute. reflexivity.
Defined.

Lemma NewAddressFromNamespace_injective_witness :
  exists a1 a2,
    NewAddressFromNamespace sampleAddressNet sampleUnicodeUpper sampleNamespaceId
      = Ok a1
    /\ NewAddressFromNamespace sampleAddressNet sampleUnicodeUpper
         (NewNamespaceIdNoCheck 0) = Ok a2
    /\ Address_Address a1 <> Address_Address a2.
Proof.
  destruct (NewAddressFromNamespace_injective sampleAddressNet sampleUnicodeUpper)
    as (_ & Htable & _).
  destruct (Htable AliasAddress) as [_ Hinj]; [vm_compute; reflexivity |].
  apply Hinj. vm_compute. discriminate.
Defined.

Lemma NewAddressFromRaw_panics_iff_witness :
  NewAddressFromRaw sampleAddressNet sampleUnicodeUpper (String "010" EmptyString) = Panic.
Proof.
  apply (proj1 (NewAddressFromRaw_panics_iff sampleAddressNet sampleUnicodeUpper
                  (String "010" EmptyString))).
  vm_compute. reflexivity.
Defined.

(** ** More statements on concrete data *)

(** The sample derivation step never fails. *)
Lemma generateNamespaceId_spec_total (part : string) (parent : NamespaceId) :
  exists id, generateNamespaceId_spec part parent = Ok id.
Proof.
  unfold generateNamespaceId_spec.
  pose proof (sha3_256_length
                (GoBinary.PutUint64 (Id parent) ++ bytes_of_string part)) as Hlen.
  destruct (Sha3.sha3_256 (GoBinary.PutUint64 (Id parent) ++ bytes_of_string part))
    as [|b0 [|b1 [|b2 [|b3 [|b4 [|b5 [|b6 [|b7 t]]]]]]]]; try discriminate Hlen.
  cbn [GoBinary.Uint64 bind]. eexists. reflexivity.
Qed.

Lemma NewNamespaceIdFromName_last_witness :
  NewNamespaceIdFromName regValidNamespace_spec generateNamespaceId_spec "prx.xpx"
    = Ok (NewNamespaceIdNoCheck 0xBFFB42A19116BDF6).
Proof.
  apply (proj1 (NewNamespaceIdFromName_last regValidNamespace_spec
                  generateNamespaceId_spec "prx.xpx")).
  exists [NewNamespaceIdNoCheck 0xB16D77FD8B6FB3BE]. vm_compute. reflexivity.
Defined.

Lemma GenerateNamespacePath_decided_witness :
  exists path,
    GenerateNamespacePath regValidNamespace_spec generateNamespaceId_spec "prx.xpx"
      = Ok path
    /\ length path = 2%nat.
Proof.
  exact (GenerateNamespacePath_decided regValidNamespace_spec
           generateNamespaceId_spec "prx.xpx" generateNamespaceId_spec_total).
Defined.

Lemma NewNamespaceIdFromName_child_witness :
  NewNamespaceIdFromName regValidNamespace_spec generateNamespaceId_spec "prx.xpx"
    = generateNamespaceId_spec "xpx" (NewNamespaceIdNoCheck 0xB16D77FD8B6FB3BE).
Proof.
  apply (NewNamespaceIdFromName_child regValidNamespace_spec generateNamespaceId_spec
           "prx" "xpx" (NewNamespaceIdNoCheck 0xB16D77FD8B6FB3BE)).
  - reflexivity.
  - reflexivity.
  - cbn. lia.
  - vm_compute. reflexivity.
Defined.

Lemma Equals_iff_Id_witness :
  Equals (NewNamespaceIdNoCheck 0x84B3552D375FFA4B) (NewNamespaceIdNoCheck 5) = true
  <-> 0x84B3552D375FFA4B = 5.
Proof. apply (Equals_iff_Id 0x84B3552D375FFA4B 5); lia. Defined.

Lemma NewAddressFromEncoded_outcomes_witness :
  NewAddressFromEncoded sampleAddressNet sampleUnicodeUpper "9" = Err ErrLength
  /\ NewAddressFromEncoded sampleAddressNet sampleUnicodeUpper "91"
     = Ok (mkAddress AliasAddress "SE======")
  /\ NewAddressFromEncoded sampleAddressNet sampleUnicodeUpper "" = Panic.
Proof.
  split; [| split].
  - apply (proj1 (NewAddressFromEncoded_outcomes sampleAddressNet
                    sampleUnicodeUpper "9")).
    reflexivity.
  - rewrite (proj1 (proj2 (NewAddressFromEncoded_outcomes sampleAddressNet
                             sampleUnicodeUpper "91")) 145 []) by reflexivity.
    vm_compute. reflexivity.
  - apply (proj2 (proj2 (NewAddressFromEncoded_outcomes sampleAddressNet
                           sampleUnicodeUpper ""))).
    reflexivity.
Defined.

Lemma NewAddressFromEncoded_hex_witness :
  NewAddressFromRaw sampleAddressNet sampleUnicodeUpper
      (GoBase32.EncodeToString [145; 1; 2])
    = Ok (mkAddress AliasAddress "SEAQE===")
  /\ "SEAQE==="%string = GoBase32.EncodeToString [145; 1; 2]
  /\ NewAddressFromRaw sampleAddressNet sampleUnicodeUpper "SEAQE==="
     = Ok (mkAddress AliasAddress "SEAQE===").
Proof.
  apply (NewAddressFromEncoded_hex sampleAddressNet sampleUnicodeUpper [145; 1; 2]
           (mkAddress AliasAddress "SEAQE===")).
  - repeat constructor; unfold fits; lia.
  - vm_compute. reflexivity.
Defined.

Lemma EncodedStringToAddresses_all_witness :
  EncodedStringToAddresses sampleAddressNet sampleUnicodeUpper ["91"; "900102"]%string
    = Ok (map Some [mkAddress AliasAddress "SE======"; mkAddress 144 "SAAQE==="]).
Proof.
  apply (proj2 (EncodedStringToAddresses_all sampleAddressNet sampleUnicodeUpper
                  ["91"; "900102"]%string _)).
  eexists. split; [reflexivity |].
  repeat constructor; vm_compute; reflexivity.
Defined.

Lemma EncodedStringToAddresses_first_error_witness :
  EncodedStringToAddresses sampleAddressNet sampleUnicodeUpper ["91"; "zz"; "91"]%string
    = Err (InvalidByteError 122)
  /\ EncodedStringToAddresses sampleAddressNet sampleUnicodeUpper ["91"; ""]%string
     = Panic.
Proof.
  assert (Hpre : Forall (fun a' => exists ad,
                   NewAddressFromEncoded sampleAddressNet sampleUnicodeUpper a' = Ok ad)
                   ["91"%string]).
  { repeat constructor. eexists. vm_compute. reflexivity. }
  split.
  - apply (proj1 (EncodedStringToAddresses_first_error sampleAddressNet
                    sampleUnicodeUpper ["91"%string] ["91"%string] "zz" Hpre)).
    reflexivity.
  - apply (proj2 (EncodedStringToAddresses_first_error sampleAddressNet
                    sampleUnicodeUpper ["91"%string] [] "" Hpre)).
    reflexivity.
Defined.

Lemma NewAddressFromRaw_keeps_newline_witness :
  NewAddressFromRaw sampleAddressNet sampleUnicodeUpper
      (sampleAddressText +:+ String "010" EmptyString)
    = (let* ad := NewAddressFromRaw sampleAddressNet sampleUnicodeUpper
                    sampleAddressText in
       Ok (mkAddress (Address_Type ad)
             (sampleAddressText +:+ String "010" EmptyString)))
  /\ String.length (sampleAddressText +:+ String "010" EmptyString) = 41%nat.
Proof.
  apply (NewAddressFromRaw_keeps_newline sampleAddressNet sampleUnicodeUpper
           sampleAddressText).
  reflexivity.
Defined.

Lemma Pretty_panics_iff_witness :
  Pretty (mkAddress 0 "") = Panic
  /\ exists p, Pretty (mkAddress AliasAddress sampleAddressText) = Ok p
       /\ String.length p = 46%nat.
Proof.
  split.
  - apply (proj1 (Pretty_panics_iff (mkAddress 0 ""))). cbn. lia.
  - apply (proj2 (Pretty_panics_iff (mkAddress AliasAddress sampleAddressText))).
    cbn. lia.
Defined.

Lemma NewAddress_idempotent_witness :
  allBytes isCanonicalByte
    (Address_Address
       (NewAddress sampleUnicodeUpper "sff7ux-zxfvk3-hbaaaa" AliasAddress)) = true
  /\ NewAddress sampleUnicodeUpper
       (Address_Address
          (NewAddress sampleUnicodeUpper "sff7ux-zxfvk3-hbaaaa" AliasAddress))
       AliasAddress
     = NewAddress sampleUnicodeUpper "sff7ux-zxfvk3-hbaaaa" AliasAddress.
Proof.
  apply (NewAddress_idempotent sampleUnicodeUpper "sff7ux-zxfvk3-hbaaaa" AliasAddress).
  reflexivity.
Defined.

Lemma NewAddressFromNamespace_reparses_witness :
  NewAddressFromRaw sampleAddressNet sampleUnicodeUpper sampleAddressText
    = Ok (mkAddress AliasAddress sampleAddressText)
  /\ exists pH, GoBase32.DecodeString sampleAddressText = Ok pH
       /\ GoBinary.Uint64 (drop 1 pH) = Ok (Id sampleNamespaceId).
Proof.
  apply (NewAddressFromNamespace_reparses sampleAddressNet sampleUnicodeUpper
           sampleNamespaceId (mkAddress AliasAddress sampleAddressText)).
  vm_compute. reflexivity.
Defined.

Lemma NewAddressFromNamespace_total_witness :
  exists text,
    NewAddressFromNamespace sampleAddressNet sampleUnicodeUpper sampleNamespaceId
      = Ok (mkAddress AliasAddress text)
    /\ isBase32Text text = true.
Proof.
  exact (NewAddressFromNamespace_total sampleAddressNet sampleUnicodeUpper
           sampleNamespaceId).
Defined.

Lemma NewNamespaceAlias_exclusive_witness :
  exists alias,
    NewNamespaceAlias sampleAddressNet sampleUnicodeUpper 2 1 Z Z sampleToStruct
      (mkNamespaceAliasDTO Z 7 "91" 2) = Ok alias
    /\ alias_Type Z alias = 2
    /\ alias_mosaicId Z alias = None
    /\ alias_address Z alias = Some (mkAddress AliasAddress "SE======").
Proof.
  exists (mkNamespaceAlias Z None (Some (mkAddress AliasAddress "SE======")) 2).
  assert (H : NewNamespaceAlias sampleAddressNet sampleUnicodeUpper 2 1 Z Z
                sampleToStruct (mkNamespaceAliasDTO Z 7 "91" 2)
              = Ok (mkNamespaceAlias Z None
                      (Some (mkAddress AliasAddress "SE======")) 2))
    by (vm_compute; reflexivity).
  split; [exact H |].
  destruct (NewNamespaceAlias_exclusive sampleAddressNet sampleUnicodeUpper 2 1 Z Z
              sampleToStruct _ _ H) as (Htype & _ & Haddr & _).
  split; [exact Htype |].
  destruct (Haddr eq_refl) as (Hm & a & Ha & _).
  split; [exact Hm | reflexivity].
Defined.

Lemma NewConfigWithReputation_parsed_witness :
  exists c,
    NewConfigWithReputation sampleFloat sampleUrlParse sampleErrorsNew
      ["a.example:3000"; "b.example:3000"]%string 144 None 0 = Ok c
    /\ map URL_Host (BaseURLs _ c) = ["a.example:3000"; "b.example:3000"]%string
    /\ BaseURLs _ c !! 0%nat = Some (UsedBaseUrl _ c)
    /\ NoDup (map URL_ptr (BaseURLs _ c))
    /\ WsReconnectionTimeout _ c = 0
    /\ Config_NetworkType _ c = 144
    /\ Config_reputationConfig _ c = None.
Proof.
  apply (NewConfigWithReputation_parsed sampleFloat sampleUrlParse sampleErrorsNew
           ["a.example:3000"; "b.example:3000"]%string
           ["a.example:3000"; "b.example:3000"]%string 144 None 0).
  repeat constructor.
Defined.

Lemma NewConfigWithReputation_first_error_witness :
  NewConfigWithReputation sampleFloat sampleUrlParse sampleErrorsNew
    ["a.example:3000"; ":3000"; "b.example:3000"]%string 144 None 0
    = Err (ErrExternal 1).
Proof.
  apply (NewConfigWithReputation_first_error sampleFloat sampleUrlParse sampleErrorsNew
           ["a.example:3000"%string] ["b.example:3000"%string] ":3000").
  - repeat constructor. eexists. reflexivity.
  - reflexivity.
Defined.

Lemma NewConfig_timeout_witness :
  exists c,
    NewConfig sampleFloat (9, 10) sampleUrlParse sampleErrorsNew
      ["a.example:3000"%string] 144 0 = Ok c
    /\ WsReconnectionTimeout sampleFloat c = 5000000000.
Proof.
  eexists. split; [reflexivity |].
  apply (NewConfig_timeout sampleFloat (9, 10) sampleUrlParse sampleErrorsNew
           ["a.example:3000"%string] 144 0); reflexivity.
Defined.

Lemma DoNewRequest_failover_witness :
  DoNewRequest sampleFloat sampleWorld sampleNewRequest sampleIsUrlError sampleConfig
    = (setUsedBaseUrl _ sampleConfig (mkURL 2 "c.example:3000"),
       ["a.example:3000"; "b.example:3000"; "c.example:3000"]%string,
       Ok (mkResponse 200)).
Proof.
  apply (DoNewRequest_failover sampleFloat sampleWorld sampleNewRequest
           sampleIsUrlError sampleConfig "a.example:3000" (ErrExternal 7)
           [mkURL 1 "b.example:3000"] [] (mkURL 2 "c.example:3000") (mkResponse 200)).
  - reflexivity.
  - reflexivity.
  - reflexivity.
  - reflexivity.
  - intros j Hj. exists (ErrExternal 7).
    cbn [length] in Hj. assert (j = 0%nat) as -> by lia. reflexivity.
  - reflexivity.
Defined.

Lemma DoNewRequest_all_fail_witness :
  DoNewRequest sampleFloat (fun _ => Err (ErrExternal 7)) sampleNewRequest
      sampleIsUrlError sampleConfig
    = (sampleConfig,
       ["a.example:3000"; "b.example:3000"; "c.example:3000"]%string,
       Err (ErrExternal 7)).
Proof.
  apply (DoNewRequest_all_fail sampleFloat (fun _ => Err (ErrExternal 7))
           sampleNewRequest sampleIsUrlError sampleConfig "a.example:3000"
           (ErrExternal 7)).
  - reflexivity.
  - reflexivity.
  - reflexivity.
  - intros j _. now exists (ErrExternal 7).
Defined.

Lemma DoNewRequest_invariant_witness :
  (length ["a.example:3000"; "b.example:3000"; "c.example:3000"]%string
   <= 1 + length (BaseURLs _ sampleConfig))%nat
  /\ (setUsedBaseUrl _ sampleConfig (mkURL 2 "c.example:3000") = sampleConfig
      \/ exists url resp,
           Ok (mkResponse 200) = Ok resp
           /\ In url (BaseURLs _ sampleConfig)
           /\ URL_ptr (UsedBaseUrl _ sampleConfig) <> URL_ptr url
           /\ setUsedBaseUrl _ sampleConfig (mkURL 2 "c.example:3000")
              = setUsedBaseUrl _ sampleConfig url).
Proof.
  destruct (DoNewRequest_invariant sampleFloat sampleWorld sampleNewRequest
              sampleIsUrlError sampleConfig
              (setUsedBaseUrl _ sampleConfig (mkURL 2 "c.example:3000"))
              ["a.example:3000"; "b.example:3000"; "c.example:3000"]%string
              (Ok (mkResponse 200)) eq_refl) as (Hlen & Hconf & _).
  split; [exact Hlen | exact Hconf].
Defined.

Lemma handleResponseStatusCode_nil_iff_witness :
  handleResponseStatusCode (ErrExternal 2) (ErrExternal 3)
    (Some (mkResponse 404)) (Some {[ 404 := Some ErrInvalidAddress ]})
    = Some ErrInvalidAddress.
Proof.
  apply (proj1 (proj2 (proj2 (handleResponseStatusCode_nil_iff (ErrExternal 2)
                                (ErrExternal 3) (Some (mkResponse 404))
                                (Some {[ 404 := Some ErrInvalidAddress ]}))))
           (mkResponse 404)).
  - reflexivity.
  - reflexivity.
Defined.

Lemma GenerateChecksum_outcomes_witness :
  GenerateChecksum (fun _ => Ok (mkByteSlice [1; 2; 3; 4; 5] [])) [] = Ok [1; 2; 3; 4]
  /\ GenerateChecksum (fun _ => Ok (mkByteSlice [1; 2; 3] [0; 0])) []
     = Ok [1; 2; 3; 0]
  /\ GenerateChecksum (fun _ => Ok (mkByteSlice [1; 2; 3] [])) [] = Panic.
Proof.
  split; [| split].
  - apply (proj1 (proj2 (GenerateChecksum_outcomes
                           (fun _ => Ok (mkByteSlice [1; 2; 3; 4; 5] [])) []))
             (mkByteSlice [1; 2; 3; 4; 5] [])).
    + reflexivity.
    + cbn. lia.
  - apply (proj2 (proj2 (proj2 (proj2 (GenerateChecksum_outcomes
                           (fun _ => Ok (mkByteSlice [1; 2; 3] [0; 0])) []))))
             (mkByteSlice [1; 2; 3] [0; 0])).
    + reflexivity.
    + cbn. lia.
    + cbn. lia.
  - apply (proj2 (proj1 (proj2 (proj2 (proj2 (GenerateChecksum_outcomes
                           (fun _ => Ok (mkByteSlice [1; 2; 3] [])) [])))))).
    right. exists (mkByteSlice [1; 2; 3] []). split; [reflexivity | cbn; lia].
Defined.
